(** * lightwalletd, package [common]: block fetcher, ingestor, range server
      and spam filter (common/common.go), embedded in Rocq.

    Go's [int] is a 64-bit integer kept as a [Z] with the wrap-around of
    its arithmetic written out; [[]byte] is a list of bytes ([nil] and the
    empty slice are both [[]]); a Go [string] is a [string]; the pair
    [(value, error)] a Go function returns is a pair of options, [None]
    being [nil]. Effects (RPC calls, the clock, the log, the cache, the
    channels) are threaded through an explicit [World]. *)

From Stdlib Require Import ZArith List String Ascii Bool Lia.
From Stdlib Require Import Strings.Byte DecimalString.
From stdpp Require Import base option list gmap strings.
Import ListNotations.

Local Open Scope string_scope.
Local Open Scope list_scope.
Local Open Scope Z_scope.

(** ** Go's 64-bit [int] *)

Module GoInt.

Definition min_int : Z := - 2 ^ 63.
Definition max_int : Z := 2 ^ 63 - 1.

Definition in_range (z : Z) : Prop := min_int <= z <= max_int.

(** Two's-complement wrap-around of a mathematical result. *)
Definition wrap (z : Z) : Z := (z + 2 ^ 63) mod 2 ^ 64 - 2 ^ 63.

Definition add (a b : Z) : Z := wrap (a + b).
Definition sub (a b : Z) : Z := wrap (a - b).

(** [uint64(x)] for an [int] x. *)
Definition to_uint64 (z : Z) : Z := z mod 2 ^ 64.

(** [strconv.Itoa]. *)
Definition Itoa (z : Z) : string := NilZero.string_of_int (Z.to_int z).

End GoInt.

(** ** Bytes and errors *)

Abbreviation bytes := (list byte).

#[global] Instance byte_eq_dec : EqDecision byte := Byte.byte_eq_dec.

(** [parser.Reverse]: the byte slice in the opposite order. *)
Definition Reverse (b : bytes) : bytes := rev b.

(** A Go [error] value. [errorString] is what [errors.New] and the
    libraries build, [withMessage] what [errors.Wrap] builds. *)
Inductive error : Type :=
| errorString (msg : string)
| withMessage (cause : error) (msg : string).

Definition errors_New (msg : string) : error := errorString msg.
Definition errors_Wrap (cause : error) (msg : string) : error :=
  withMessage cause msg.

(** The [Error()] method. *)
Fixpoint Error_string (e : error) : string :=
  match e with
  | errorString msg => msg
  | withMessage cause msg => (msg ++ ": " ++ Error_string cause)%string
  end.

(** [strings.Split(s, ":")]: the pieces of [s] between colons; never empty. *)
Fixpoint strings_Split_colon (s : string) : list string :=
  match s with
  | EmptyString => [EmptyString]
  | String c rest =>
      if Ascii.eqb c ":"%char then EmptyString :: strings_Split_colon rest
      else match strings_Split_colon rest with
           | piece :: pieces => String c piece :: pieces
           | [] => [String c EmptyString]
           end
  end.

(** [(strings.Split(rpcErr.Error(), ":"))[0] == "-8"]. *)
Definition is_code_minus8 (rpcErr : error) : bool :=
  match strings_Split_colon (Error_string rpcErr) with
  | first :: _ => String.eqb first "-8"
  | [] => false
  end.

(** ** encoding/hex *)

Definition fromHexChar (c : ascii) : option N :=
  let n := N_of_ascii c in
  if ((48 <=? n) && (n <=? 57))%N then Some (n - 48)%N
  else if ((97 <=? n) && (n <=? 102))%N then Some (n - 97 + 10)%N
  else if ((65 <=? n) && (n <=? 70))%N then Some (n - 65 + 10)%N
  else None.

Definition byte_of_nibbles (a b : N) : byte :=
  byte_of_ascii (ascii_of_N (16 * a + b)).

Definition hex_ErrLength : error :=
  errorString "encoding/hex: odd length hex string".
Definition hex_InvalidByteError (c : ascii) : error :=
  errorString ("encoding/hex: invalid byte: " ++ String c EmptyString)%string.

(** [hex.DecodeString]: pairs of hex digits, either case; an odd length or
    a character that is no hex digit is an error. *)
Fixpoint hex_DecodeString (s : string) : error + bytes :=
  match s with
  | EmptyString => inr []
  | String p EmptyString =>
      match fromHexChar p with
      | None => inl (hex_InvalidByteError p)
      | Some _ => inl hex_ErrLength
      end
  | String p (String q rest) =>
      match fromHexChar p, fromHexChar q with
      | None, _ => inl (hex_InvalidByteError p)
      | _, None => inl (hex_InvalidByteError q)
      | Some a, Some b =>
          match hex_DecodeString rest with
          | inl e => inl e
          | inr bs => inr (byte_of_nibbles a b :: bs)
          end
      end
  end.

(** ** walletrpc: the compact-block messages *)

(** Modelled from the spec: the protobuf messages of package walletrpc
    (generated code, not among the sources). The fields are the ones the
    code of this package reads or writes ([PrevHash], [Hash], [Vtx],
    [Outputs], [Actions], [Ciphertext], [Epk], [EphemeralKey], [Nullifier])
    and the ones section 3 of the specification lists (height, time,
    transaction id and index, the commitments). Repeated message fields
    are slices of pointers; here, at value level, they are lists. *)
Record CompactSaplingSpend := mkSpend { Nf : bytes }.

Record CompactSaplingOutput := mkOutput {
  Cmu : bytes;
  Epk : bytes;
  Ciphertext : bytes;
}.

Record CompactOrchardAction := mkAction {
  Nullifier : bytes;
  Cmx : bytes;
  EphemeralKey : bytes;
  ActCiphertext : bytes;
}.

Record CompactTx := mkTx {
  Index : Z;
  TxHash : bytes;
  Fee : Z;
  Spends : list CompactSaplingSpend;
  Outputs : list CompactSaplingOutput;
  Actions : list CompactOrchardAction;
}.

Record CompactBlock := mkBlock {
  ProtoVersion : Z;
  Height : Z;
  Hash : bytes;
  PrevHash : bytes;
  Time : Z;
  Header : bytes;
  Vtx : list CompactTx;
}.

Record LightdInfo := mkLightdInfo {
  li_Version : string;
  li_Vendor : string;
  li_TaddrSupport : bool;
  li_ChainName : string;
  li_SaplingActivationHeight : Z;
  li_ConsensusBranchId : string;
  li_BlockHeight : Z;
  li_GitCommit : string;
  li_Branch : string;
  li_BuildDate : string;
  li_BuildUser : string;
  li_EstimatedHeight : Z;
  li_ZcashdBuild : string;
  li_ZcashdSubversion : string;
}.

(** ** The zcashd RPC replies (the JSON structs of common.go) *)

Record Upgradeinfo := mkUpgradeinfo {
  ActivationHeight : Z;
  Status : string;
}.

Record ConsensusInfo := mkConsensusInfo {
  Nextblock : string;
  Chaintip : string;
}.

Record ZcashdRpcReplyGetblockchaininfo := mkGetblockchaininfo {
  Chain : string;
  Upgrades : gmap string Upgradeinfo;
  Blocks : Z;
  BestBlockHash : string;
  Consensus : ConsensusInfo;
  EstimatedHeight : Z;
}.

Record ZcashdRpcReplyGetinfo := mkGetinfo {
  Build : string;
  Subversion : string;
}.

Record ZcashRpcReplyGetblock1 := mkGetblock1 { Tx : list string }.

(** [json.RawMessage]: the raw bytes of a JSON value. *)
Abbreviation RawMessage := string.

(** ** What the package takes from outside *)

(** The libraries and globals the code calls and that are not part of
    common.go: [encoding/json]'s decoder at the four types it is used at
    (a decoder fills its target or returns an error), the package-level
    [RawRequest] hook, the [parser] package and the build strings.
    [RawRequest] is a mockable function variable; its replies may depend on
    how many requests were made before, which is its first argument. *)
Class Externals := {
  RawRequest : nat -> string -> list RawMessage -> RawMessage * option error;
  json_Unmarshal_string : RawMessage -> error + string;
  json_Unmarshal_Getblock1 : RawMessage -> error + ZcashRpcReplyGetblock1;
  json_Unmarshal_Getinfo : RawMessage -> error + ZcashdRpcReplyGetinfo;
  json_Unmarshal_Getblockchaininfo :
    RawMessage -> error + ZcashdRpcReplyGetblockchaininfo;
  (* package parser: [parser.NewBlock()] followed by [ParseFromSlice],
     which returns the unread rest of the data *)
  parser_Block : Type;
  ParseFromSlice : bytes -> error + (parser_Block * bytes);
  Block_GetHeight : parser_Block -> Z;
  (* [len(block.Transactions())] *)
  Block_NumTransactions : parser_Block -> nat;
  (* the block after [t.SetTxID(id)] on its i-th transaction *)
  Block_SetTxID : parser_Block -> nat -> bytes -> parser_Block;
  ToCompact : parser_Block -> CompactBlock;
  (* the build variables and the darkside switch *)
  Version : string;
  GitCommit : string;
  Branch : string;
  BuildDate : string;
  BuildUser : string;
  DarksideEnabled : bool;
}.

(** Modelled from the spec: the BlockCache of cache.go, which is not among
    the sources; its operations as section 4.3 of the specification lists
    them. Readers return a value; writers return the cache they leave. *)
Class BlockCacheOps (C : Type) := {
  GetFirstHeight : C -> Z;
  GetNextHeight : C -> Z;
  GetLatestHash : C -> bytes;
  HashMatch : C -> bytes -> bool;
  Get : C -> Z -> option CompactBlock;
  Add : C -> Z -> CompactBlock -> C * option error;
  Reorg : C -> Z -> C;
  Sync : C -> C;
}.

(** ** The world the package runs in *)

(** What the code does to its surroundings, in the order it does it. *)
Inductive Event : Type :=
| EvRawRequest (method : string) (params : list RawMessage)
| EvSleep (d : Z)
| EvLogInfo (msg : string)
| EvAdd (height : Z) (block : CompactBlock)
| EvReorg (height : Z)
| EvSync.

(** The cache shared by the ingestor and the readers, the number of RPC
    requests made so far, the clock behind [Time.Now] and [Time.Sleep]
    (nanoseconds), the events so far (oldest first), the two package
    variables of the ingestor's life cycle ([stopWaiting] counts the
    senders blocked on the unbuffered [stopIngestorChan]), the number of
    [go BlockIngestor] statements executed, and what has been sent on
    the two channels handed to [GetBlockRange] (oldest first; a block
    pointer or an error may be nil). *)
Record World (C : Type) : Type := mkWorld {
  cache : C;
  requests : nat;
  clock : Z;
  events : list Event;
  ingestorRunning : bool;
  stopWaiting : nat;
  spawned : nat;
  blockOut : list (option CompactBlock);
  errOut : list (option error);
}.

Arguments mkWorld {C}.
Arguments cache {C}.
Arguments requests {C}.
Arguments clock {C}.
Arguments events {C}.
Arguments ingestorRunning {C}.
Arguments stopWaiting {C}.
Arguments spawned {C}.
Arguments blockOut {C}.
Arguments errOut {C}.

(** How a call can fail to return: [Log.Fatal] ends the process, a
    run-time panic (index out of range, nil dereference) crashes it. *)
Inductive Abort : Type :=
| LogFatal (msg : string)
| Panic (msg : string).

Inductive Res (A : Type) : Type :=
| Done (a : A)
| Aborted (why : Abort).

Arguments Done {A}.
Arguments Aborted {A}.

Definition M (C A : Type) : Type := World C -> Res A * World C.

Definition ret {C A} (a : A) : M C A := fun w => (Done a, w).

Definition bind {C A B} (m : M C A) (k : A -> M C B) : M C B :=
  fun w =>
    match m w with
    | (Done a, w') => k a w'
    | (Aborted why, w') => (Aborted why, w')
    end.

Definition abort {C A} (why : Abort) : M C A := fun w => (Aborted why, w).

Notation "x <- m ;; k" := (bind m (fun x => k))
  (at level 20, m at level 99, k at level 200, only parsing).
Notation "' pat <- m ;; k" := (bind m (fun x => let 'pat := x in k))
  (at level 20, pat pattern, m at level 99, k at level 200, only parsing).

Definition Second : Z := 1000000000.

Section Primitives.

Context {C : Type} {BC : BlockCacheOps C} {E : Externals}.

Definition emit (ev : Event) : M C unit := fun w =>
  (Done tt,
   mkWorld (cache w) (requests w) (clock w) (events w ++ [ev])
           (ingestorRunning w) (stopWaiting w) (spawned w)
           (blockOut w) (errOut w)).

Definition set_cache (c : C) : M C unit := fun w =>
  (Done tt,
   mkWorld c (requests w) (clock w) (events w)
           (ingestorRunning w) (stopWaiting w) (spawned w)
           (blockOut w) (errOut w)).

Definition read_cache {A} (f : C -> A) : M C A := fun w =>
  (Done (f (cache w)), w).

(** [RawRequest(method, params)] *)
Definition rawRequest (method : string) (params : list RawMessage)
  : M C (RawMessage * option error) := fun w =>
  (Done (RawRequest (requests w) method params),
   mkWorld (cache w) (S (requests w)) (clock w)
           (events w ++ [EvRawRequest method params])
           (ingestorRunning w) (stopWaiting w) (spawned w)
           (blockOut w) (errOut w)).

(** [Time.Now()] and [Time.Sleep(d)] *)
Definition Time_Now : M C Z := fun w => (Done (clock w), w).

Definition Time_Sleep (d : Z) : M C unit := fun w =>
  (Done tt,
   mkWorld (cache w) (requests w) (clock w + d) (events w ++ [EvSleep d])
           (ingestorRunning w) (stopWaiting w) (spawned w)
           (blockOut w) (errOut w)).

Definition Log_Info (msg : string) : M C unit := emit (EvLogInfo msg).

Definition Log_Fatal {A} (msg : string) : M C A := abort (LogFatal msg).

(** The cache's writers: the call is recorded and the cache replaced. *)
Definition cache_Add (height : Z) (block : CompactBlock)
  : M C (option error) :=
  c <- read_cache id ;;
  _ <- emit (EvAdd height block) ;;
  _ <- set_cache (fst (Add c height block)) ;;
  ret (snd (Add c height block)).

Definition cache_Reorg (height : Z) : M C unit :=
  c <- read_cache id ;;
  _ <- emit (EvReorg height) ;;
  set_cache (Reorg c height).

Definition cache_Sync : M C unit :=
  c <- read_cache id ;;
  _ <- emit EvSync ;;
  set_cache (Sync c).

(** [blockOut <- b] and [errOut <- e] *)
Definition send_block (b : option CompactBlock) : M C unit := fun w =>
  (Done tt,
   mkWorld (cache w) (requests w) (clock w) (events w)
           (ingestorRunning w) (stopWaiting w) (spawned w)
           (blockOut w ++ [b]) (errOut w)).

Definition send_err (e : option error) : M C unit := fun w =>
  (Done tt,
   mkWorld (cache w) (requests w) (clock w) (events w)
           (ingestorRunning w) (stopWaiting w) (spawned w)
           (blockOut w) (errOut w ++ [e])).

(** [select { case <-stopIngestorChan: ...; default: }]: the receive
    succeeds exactly when a sender is waiting, and releases it. *)
Definition try_recv_stop : M C bool := fun w =>
  match stopWaiting w with
  | O => (Done false, w)
  | S n =>
      (Done true,
       mkWorld (cache w) (requests w) (clock w) (events w)
               (ingestorRunning w) n (spawned w)
               (blockOut w) (errOut w))
  end.

End Primitives.

(** ** The spam filter, on block values *)

(** What [FilterSpammyBlock] leaves of an output and of an action it
    clears. *)
Definition clear_output (o : CompactSaplingOutput) : CompactSaplingOutput :=
  mkOutput (Cmu o) [] [].

Definition clear_action (a : CompactOrchardAction) : CompactOrchardAction :=
  mkAction [] (Cmx a) [] [].

(** [len(tx.Outputs)+len(tx.Actions) > spamFilterThreshold]; the two
    lengths are those of slices in memory, their sum does not wrap. *)
Definition is_spammy (spamFilterThreshold : Z) (tx : CompactTx) : bool :=
  spamFilterThreshold <?
    Z.of_nat (length (Outputs tx)) + Z.of_nat (length (Actions tx)).

Definition filter_tx (spamFilterThreshold : Z) (tx : CompactTx) : CompactTx :=
  if is_spammy spamFilterThreshold tx then
    mkTx (Index tx) (TxHash tx) (Fee tx) (Spends tx)
         (map clear_output (Outputs tx)) (map clear_action (Actions tx))
  else tx.

Definition filter_block (spamFilterThreshold : Z) (block : CompactBlock)
  : CompactBlock :=
  mkBlock (ProtoVersion block) (Height block) (Hash block) (PrevHash block)
          (Time block) (Header block)
          (map (filter_tx spamFilterThreshold) (Vtx block)).

(** [FilterSpammyBlock] as [GetBlockRange] uses it: from a block pointer
    (possibly nil) to the value behind the pointer it returns. With a zero
    threshold the argument comes back; otherwise the clone is walked, and
    a nil block cannot be: [newBlock.Vtx] dereferences it. The pointers
    themselves are the subject of module [Pointers] below. *)
Definition FilterSpammyBlock_value (block : option CompactBlock)
    (spamFilterThreshold : Z) : Res (option CompactBlock) :=
  if spamFilterThreshold =? 0 then Done block
  else match block with
       | None => Aborted (Panic "invalid memory address or nil pointer dereference")
       | Some b => Done (Some (filter_block spamFilterThreshold b))
       end.

(** ** The block fetcher, the range server, the ingestor *)

(** [json.Marshal] of a Go string that needs no escaping (here a decimal
    numeral): the string between double quotes; it cannot fail. *)
Definition json_Marshal_string (s : string) : RawMessage * option error :=
  let quote := String (ascii_of_nat 34) EmptyString in
  ((quote ++ s ++ quote)%string, None).

(** How a loop of this package ends within the iterations it is given. *)
Inductive LoopExit : Type :=
| Returned
| StillRunning.

Section Package.

Context {C : Type} {BC : BlockCacheOps C} {E : Externals}.

(** The [for i, t := range block.Transactions()] loop of
    [getBlockFromRPC], with [n] transactions still to visit from index
    [i] on: the new block, or the error returned from inside the loop;
    [block1.Tx[i]] panics when the list has no entry [i]. *)
Fixpoint set_txids (n i : nat) (tx : list string) (block : parser_Block)
  : Res (error + parser_Block) :=
  match n with
  | O => Done (inr block)
  | S n' =>
      match tx !! i with
      | None => Aborted (Panic "index out of range")
      | Some s =>
          match hex_DecodeString s with
          | inl err =>
              Done (inl (errors_Wrap err "error decoding getblock txid"))
          | inr txid =>
              set_txids n' (S i) tx (Block_SetTxID block i (Reverse txid))
          end
      end
  end.

Definition getBlockFromRPC (height : Z)
  : M C (option CompactBlock * option error) :=
  match json_Marshal_string (GoInt.Itoa height) with
  | (_, Some err) => Log_Fatal "getBlockFromRPC bad height argument"
  | (heightJSON, None) =>
  '(result, rpcErr) <- rawRequest "getblock" [heightJSON; "0"] ;;
  match rpcErr with
  | Some rpcErr =>
      if is_code_minus8 rpcErr then ret (None, None)
      else ret (None, Some (errors_Wrap rpcErr "error requesting block"))
  | None =>
  match json_Unmarshal_string result with
  | inl err => ret (None, Some (errors_Wrap err "error reading JSON response"))
  | inr blockDataHex =>
  match hex_DecodeString blockDataHex with
  | inl err =>
      ret (None, Some (errors_Wrap err "error decoding getblock output"))
  | inr blockData =>
  match ParseFromSlice blockData with
  | inl err => ret (None, Some (errors_Wrap err "error parsing block"))
  | inr (block, rest) =>
  if negb (length rest =? 0)%nat then
    ret (None, Some (errors_New "received overlong message"))
  else if negb (Block_GetHeight block =? height) then
    ret (None, Some (errors_New "received unexpected height block"))
  else
  '(result, rpcErr) <- rawRequest "getblock" [heightJSON; "1"] ;;
  match rpcErr with
  | Some rpcErr =>
      ret (None, Some (errors_Wrap rpcErr "error requesting verbose block"))
  | None =>
  match json_Unmarshal_Getblock1 result with
  | inl err => ret (None, Some err)
  | inr block1 =>
  match set_txids (Block_NumTransactions block) 0 (Tx block1) block with
  | Aborted why => abort why
  | Done (inl err) => ret (None, Some err)
  | Done (inr block) => ret (Some (ToCompact block), None)
  end end end end end end end end.

Definition GetBlock (height : Z)
  : M C (option CompactBlock * option error) :=
  block <- read_cache (fun cache => Get cache height) ;;
  match block with
  | Some _ => ret (block, None)
  | None =>
      '(block, err) <- getBlockFromRPC height ;;
      match err with
      | Some err => ret (None, Some err)
      | None =>
          match block with
          | None =>
              ret (None,
                   Some (errors_New "block requested is newer than latest block"))
          | Some _ => ret (block, None)
          end
      end
  end.

(** The [for i := low; i <= high; i++] loop of [GetBlockRange], for at
    most [fuel] iterations. *)
Fixpoint GetBlockRange_loop (fuel : nat) (start end_ low high : Z)
    (spamFilterThreshold : Z) (i : Z) : M C LoopExit :=
  match fuel with
  | O => ret StillRunning
  | S fuel' =>
      if i <=? high then
        let j := if end_ <? start
                 then GoInt.sub high (GoInt.sub i low) else i in
        '(block, err) <- GetBlock j ;;
        match err with
        | Some err => '_ <- send_err (Some err) ;; ret Returned
        | None =>
            match FilterSpammyBlock_value block spamFilterThreshold with
            | Aborted why => abort why
            | Done filtered =>
                '_ <- send_block filtered ;;
                GetBlockRange_loop fuel' start end_ low high
                                   spamFilterThreshold (GoInt.add i 1)
            end
        end
      else '_ <- send_err None ;; ret Returned
  end.

Definition GetBlockRange (fuel : nat) (start end_ : Z)
    (spamFilterThreshold : Z) : M C LoopExit :=
  let low := if end_ <? start then end_ else start in
  let high := if end_ <? start then start else end_ in
  GetBlockRange_loop fuel start end_ low high spamFilterThreshold low.

End Package.

(** The two local variables of [BlockIngestor] that live across
    iterations, and how one pass through the loop body ends. *)
Record IngestorLocals : Type := mkLocals {
  lastLog : Z;
  lastHeightLogged : Z;
}.

Inductive BodyExit : Type :=
| Continue (locals : IngestorLocals)
| Return_.

Section Ingestor.

Context {C : Type} {BC : BlockCacheOps C} {E : Externals}.

(** The rest of the loop body once [getBlockFromRPC(height)] has returned
    [block] and a nil error: from [if block != nil && c.HashMatch(...)]
    to the end of the body. *)
Definition ingest_fetched (locals : IngestorLocals) (height : Z)
    (block : option CompactBlock) : M C BodyExit :=
  matches <-
    match block with
    | None => ret false
    | Some b => read_cache (fun c => HashMatch c (PrevHash b))
    end ;;
  match block, (matches : bool) with
  | Some b, true =>
      err <- cache_Add height b ;;
      match err with
      | Some _ => Log_Fatal "Cache add failed:"
      | None =>
          (* Don't log these too often. *)
          now <- Time_Now ;;
          if DarksideEnabled || (4 * Second <=? now - lastLog locals) then
            now <- Time_Now ;;
            '_ <- Log_Info "Adding block to cache " ;;
            ret (Continue (mkLocals now (lastHeightLogged locals)))
          else ret (Continue locals)
      end
  | _, _ =>
      first <- read_cache GetFirstHeight ;;
      if height =? first then
        '_ <- cache_Sync ;;
        '_ <- Log_Info
                "Waiting for zcashd height to reach Sapling activation height " ;;
        '_ <- Time_Sleep (20 * Second) ;;
        ret Return_
      else
        '_ <- Log_Info "REORG: dropping block " ;;
        '_ <- cache_Reorg (GoInt.sub height 1) ;;
        ret (Continue locals)
  end.

(** The body of the [for] loop of [BlockIngestor]. *)
Definition BlockIngestor_body (locals : IngestorLocals) : M C BodyExit :=
  stop <- try_recv_stop ;;
  if (stop : bool) then ret Return_ else
  '(result, err) <- rawRequest "getbestblockhash" [] ;;
  match err with
  | Some _ => Log_Fatal "error zcashd getbestblockhash rpc"
  | None =>
  match json_Unmarshal_string result with
  | inl _ => Log_Fatal "bad getbestblockhash return:"
  | inr hashHex =>
  match hex_DecodeString hashHex with
  | inl _ => Log_Fatal "error decoding getbestblockhash"
  | inr lastBestBlockHash =>
  height <- read_cache GetNextHeight ;;
  latest <- read_cache GetLatestHash ;;
  if bool_decide (lastBestBlockHash = Reverse latest) then
    (* Synced *)
    '_ <- cache_Sync ;;
    heightLogged <-
      (if negb (lastHeightLogged locals =? GoInt.sub height 1) then
         '_ <- Log_Info "Waiting for block: " ;;
         ret (GoInt.sub height 1)
       else ret (lastHeightLogged locals)) ;;
    '_ <- Time_Sleep (2 * Second) ;;
    now <- Time_Now ;;
    ret (Continue (mkLocals now heightLogged))
  else
  '(block, err) <- getBlockFromRPC height ;;
  match err with
  | Some _ => Log_Fatal "getblock failed, will retry"
  | None => ingest_fetched locals height block
  end end end end.

(** [for i := 0; rep == 0 || i < rep; i++ { body }], for at most [fuel]
    iterations. *)
Fixpoint BlockIngestor_loop (fuel : nat) (rep i : Z)
    (locals : IngestorLocals) : M C LoopExit :=
  match fuel with
  | O => ret StillRunning
  | S fuel' =>
      if (rep =? 0) || (i <? rep) then
        exit <- BlockIngestor_body locals ;;
        match exit with
        | Return_ => ret Returned
        | Continue locals' =>
            BlockIngestor_loop fuel' rep (GoInt.add i 1) locals'
        end
      else ret Returned
  end.

Definition BlockIngestor (fuel : nat) (rep : Z) : M C LoopExit :=
  lastLog <- Time_Now ;;
  BlockIngestor_loop fuel rep 0 (mkLocals lastLog 0).

(** [startIngestor]: the [go BlockIngestor(c, 0)] statement is counted
    in [spawned]; the goroutine itself is [BlockIngestor _ 0]. *)
Definition startIngestor : M C unit := fun w =>
  if negb (ingestorRunning w) then
    (Done tt,
     mkWorld (cache w) (requests w) (clock w) (events w)
             true (stopWaiting w) (S (spawned w))
             (blockOut w) (errOut w))
  else (Done tt, w).

(** [stopIngestor]: with the flag set, the flag is cleared and the
    request sent on the unbuffered [stopIngestorChan]. That send blocks:
    the world given back is the one in which the caller waits at the
    send, counted in [stopWaiting], and the call is over for its caller
    only once a loop's receive ([try_recv_stop]) has taken the request.
    What the caller does after [stopIngestor] is therefore to be read in
    the world after that receive, never in this one. With the flag clear
    nothing is sent and the call returns at once. *)
Definition stopIngestor : M C unit := fun w =>
  if ingestorRunning w then
    (Done tt,
     mkWorld (cache w) (requests w) (clock w) (events w)
             false (S (stopWaiting w)) (spawned w)
             (blockOut w) (errOut w))
  else (Done tt, w).

Definition GetLightdInfo : M C (option LightdInfo * option error) :=
  '(result, rpcErr) <- rawRequest "getinfo" [] ;;
  match rpcErr with
  | Some _ => ret (None, rpcErr)
  | None =>
  match json_Unmarshal_Getinfo result with
  | inl err => ret (None, rpcErr)
  | inr getinfoReply =>
  '(result, rpcErr) <- rawRequest "getblockchaininfo" [] ;;
  match rpcErr with
  | Some _ => ret (None, rpcErr)
  | None =>
  match json_Unmarshal_Getblockchaininfo result with
  | inl err => ret (None, rpcErr)
  | inr getblockchaininfoReply =>
  (* If the sapling consensus branch doesn't exist, it must be regtest *)
  let saplingHeight :=
    match Upgrades getblockchaininfoReply !! "76b809bb" with
    | Some saplingJSON => ActivationHeight saplingJSON
    | None => 0
    end in
  let vendor :=
    if DarksideEnabled then "Zecwallet DarksideWalletD"
    else "Zecwallet LightWalletD" in
  ret (Some (mkLightdInfo
               Version vendor true
               (Chain getblockchaininfoReply)
               (GoInt.to_uint64 saplingHeight)
               (Chaintip (Consensus getblockchaininfoReply))
               (GoInt.to_uint64 (Blocks getblockchaininfoReply))
               GitCommit Branch BuildDate BuildUser
               (GoInt.to_uint64 (EstimatedHeight getblockchaininfoReply))
               (Build getinfoReply) (Subversion getinfoReply)),
       None)
  end end end end.

End Ingestor.

(** ** The spam filter, on pointers *)

(** [FilterSpammyBlock] takes and returns a [*walletrpc.CompactBlock]; the
    repeated fields of the messages are slices of pointers, and the loop
    writes through them. The heap holds the messages by kind; pointers
    are taken non-nil. A result of [None] is a pointer with nothing behind
    it, which Go's memory safety excludes. *)
Module Pointers.

Abbreviation loc := positive.

Record TxObj : Type := mkTxObj {
  o_Index : Z;
  o_TxHash : bytes;
  o_Fee : Z;
  o_Spends : list loc;
  o_Outputs : list loc;
  o_Actions : list loc;
}.

Record BlockObj : Type := mkBlockObj {
  o_ProtoVersion : Z;
  o_Height : Z;
  o_Hash : bytes;
  o_PrevHash : bytes;
  o_Time : Z;
  o_Header : bytes;
  o_Vtx : list loc;
}.

Record Heap : Type := mkHeap {
  spends : gmap loc CompactSaplingSpend;
  outputs : gmap loc CompactSaplingOutput;
  actions : gmap loc CompactOrchardAction;
  txs : gmap loc TxObj;
  blocks : gmap loc BlockObj;
}.

(** The values behind a slice of pointers, behind a transaction pointer
    and behind a block pointer. *)
Definition read_all {A} (m : gmap loc A) (ps : list loc) : option (list A) :=
  mapM (fun p => m !! p) ps.

Definition read_tx (h : Heap) (p : loc) : option CompactTx :=
  t ← txs h !! p;
  sp ← read_all (spends h) (o_Spends t);
  ou ← read_all (outputs h) (o_Outputs t);
  ac ← read_all (actions h) (o_Actions t);
  Some (mkTx (o_Index t) (o_TxHash t) (o_Fee t) sp ou ac).

Definition read_block (h : Heap) (p : loc) : option CompactBlock :=
  b ← blocks h !! p;
  vtx ← mapM (read_tx h) (o_Vtx b);
  Some (mkBlock (o_ProtoVersion b) (o_Height b) (o_Hash b) (o_PrevHash b)
                (o_Time b) (o_Header b) vtx).

(** [proto.Clone]: a deep copy, every message of the copy at a new
    address. *)
Fixpoint clone_all {A} (m : gmap loc A) (ps : list loc)
  : option (gmap loc A * list loc) :=
  match ps with
  | [] => Some (m, [])
  | p :: ps' =>
      v ← m !! p;
      let q := fresh (dom m) in
      '(m', qs) ← clone_all (<[q := v]> m) ps';
      Some (m', q :: qs)
  end.

Definition clone_tx (h : Heap) (p : loc) : option (Heap * loc) :=
  t ← txs h !! p;
  '(sp, sps) ← clone_all (spends h) (o_Spends t);
  '(ou, ous) ← clone_all (outputs h) (o_Outputs t);
  '(ac, acs) ← clone_all (actions h) (o_Actions t);
  let q := fresh (dom (txs h)) in
  Some (mkHeap sp ou ac
          (<[q := mkTxObj (o_Index t) (o_TxHash t) (o_Fee t) sps ous acs]>
             (txs h))
          (blocks h),
        q).

Fixpoint clone_txs (h : Heap) (ps : list loc) : option (Heap * list loc) :=
  match ps with
  | [] => Some (h, [])
  | p :: ps' =>
      '(h1, q) ← clone_tx h p;
      '(h2, qs) ← clone_txs h1 ps';
      Some (h2, q :: qs)
  end.

Definition proto_Clone (h : Heap) (p : loc) : option (Heap * loc) :=
  b ← blocks h !! p;
  '(h1, vtx) ← clone_txs h (o_Vtx b);
  let q := fresh (dom (blocks h1)) in
  Some (mkHeap (spends h1) (outputs h1) (actions h1) (txs h1)
          (<[q := mkBlockObj (o_ProtoVersion b) (o_Height b) (o_Hash b)
                             (o_PrevHash b) (o_Time b) (o_Header b) vtx]>
             (blocks h1)),
        q).

(** [outputs.Ciphertext = nil; outputs.Epk = nil] *)
Definition wipe_output (o : CompactSaplingOutput) : CompactSaplingOutput :=
  let o1 := mkOutput (Cmu o) (Epk o) [] in
  mkOutput (Cmu o1) [] (Ciphertext o1).

(** [action.Ciphertext = nil; action.EphemeralKey = nil;
    action.Nullifier = nil] *)
Definition wipe_action (a : CompactOrchardAction) : CompactOrchardAction :=
  let a1 := mkAction (Nullifier a) (Cmx a) (EphemeralKey a) [] in
  let a2 := mkAction (Nullifier a1) (Cmx a1) [] (ActCiphertext a1) in
  mkAction [] (Cmx a2) (EphemeralKey a2) (ActCiphertext a2).

(** The two inner [for ... range] loops: a write through each pointer. *)
Definition wipe_all {A} (f : A -> A) (m : gmap loc A) (ps : list loc)
  : gmap loc A :=
  foldl (fun m p => alter f p m) m ps.

(** The body of [for _, tx := range newBlock.Vtx]. *)
Definition filter_at (spamFilterThreshold : Z) (h : Heap) (tx : loc) : Heap :=
  match txs h !! tx with
  | None => h
  | Some t =>
      if spamFilterThreshold <?
           Z.of_nat (length (o_Outputs t)) + Z.of_nat (length (o_Actions t))
      then mkHeap (spends h)
                  (wipe_all wipe_output (outputs h) (o_Outputs t))
                  (wipe_all wipe_action (actions h) (o_Actions t))
                  (txs h) (blocks h)
      else h
  end.

Definition FilterSpammyBlock (h : Heap) (block : loc)
    (spamFilterThreshold : Z) : option (Heap * loc) :=
  if spamFilterThreshold =? 0 then Some (h, block)
  else
    (* Make a copy of the block so we can modify it *)
    '(h1, newBlock) ← proto_Clone h block;
    b ← blocks h1 !! newBlock;
    Some (foldl (filter_at spamFilterThreshold) h1 (o_Vtx b), newBlock).

(** The output pointers and the action pointers of the transaction at
    [q], and of the transactions at [qs] one after the other. *)
Definition out_fp (T : gmap loc TxObj) (q : loc) : list loc :=
  match T !! q with
  | Some t => o_Outputs t
  | None => []
  end.

Definition act_fp (T : gmap loc TxObj) (q : loc) : list loc :=
  match T !! q with
  | Some t => o_Actions t
  | None => []
  end.

Definition out_fps (T : gmap loc TxObj) (qs : list loc) : list loc :=
  concat (map (out_fp T) qs).

Definition act_fps (T : gmap loc TxObj) (qs : list loc) : list loc :=
  concat (map (act_fp T) qs).

(** Every message of [h] is in [h'], unchanged. *)
Definition preserved (h h' : Heap) : Prop :=
  spends h ⊆ spends h' /\ outputs h ⊆ outputs h' /\
  actions h ⊆ actions h' /\ txs h ⊆ txs h' /\ blocks h ⊆ blocks h'.

End Pointers.

(** What the specification says of a filtered transaction, in its words:
    at or below the threshold it is left as it is; above it, every output
    has ciphertext and ephemeral key cleared, every action ciphertext,
    ephemeral key and nullifier, and the rest is intact. *)
Definition output_cleared (o o' : CompactSaplingOutput) : Prop :=
  Ciphertext o' = [] /\ Epk o' = [] /\ Cmu o' = Cmu o.

Definition action_cleared (a a' : CompactOrchardAction) : Prop :=
  ActCiphertext a' = [] /\ EphemeralKey a' = [] /\ Nullifier a' = [] /\
  Cmx a' = Cmx a.

Definition tx_filtered (t : Z) (tx tx' : CompactTx) : Prop :=
  if Z.of_nat (length (Outputs tx)) + Z.of_nat (length (Actions tx)) <=? t
  then tx' = tx
  else Index tx' = Index tx /\ TxHash tx' = TxHash tx /\ Fee tx' = Fee tx /\
       Spends tx' = Spends tx /\
       Forall2 output_cleared (Outputs tx) (Outputs tx') /\
       Forall2 action_cleared (Actions tx) (Actions tx').

Definition block_filtered (t : Z) (b b' : CompactBlock) : Prop :=
  ProtoVersion b' = ProtoVersion b /\ Height b' = Height b /\
  Hash b' = Hash b /\ PrevHash b' = PrevHash b /\ Time b' = Time b /\
  Header b' = Header b /\ Forall2 (tx_filtered t) (Vtx b) (Vtx b').

(** ** A cache after the specification *)

(** Modelled from the spec: the block cache of section 3 and 4.3 (cache.go
    is not among the sources): a fixed first height, the blocks of the
    window [firstHeight, nextHeight) in height order, and the synced
    indicator. *)
Module SpecCache.

Record t : Type := mk {
  firstHeight : Z;
  window : list CompactBlock;
  synced : bool;
}.

(** Modelled from the spec: "next height to be ingested (= tail height
    + 1, or firstHeight if empty)". *)
Definition nextHeight (c : t) : Z := firstHeight c + Z.of_nat (length (window c)).

(** Modelled from the spec: "hash of the highest cached block, or empty
    if the cache is empty". *)
Definition latestHash (c : t) : bytes :=
  match last (window c) with
  | Some b => Hash b
  | None => []
  end.

(** Modelled from the spec: "true iff candidatePrevHash equals
    GetLatestHash()". *)
Definition hashMatch (c : t) (candidatePrevHash : bytes) : bool :=
  bool_decide (candidatePrevHash = latestHash c).

(** Modelled from the spec: "the block at height if within [firstHeight,
    nextHeight), else nil". *)
Definition get (c : t) (height : Z) : option CompactBlock :=
  if (firstHeight c <=? height) && (height <? nextHeight c)
  then window c !! Z.to_nat (height - firstHeight c)
  else None.

(** Modelled from the spec: "succeeds only if height == GetNextHeight();
    appends the block and advances nextHeight. Fails (and must not
    mutate state) if height is out of sequence". *)
Definition add (c : t) (height : Z) (block : CompactBlock) : t * option error :=
  if height =? nextHeight c
  then (mk (firstHeight c) (window c ++ [block]) (synced c), None)
  else (c, Some (errors_New "cache add out of sequence")).

(** Modelled from the spec: "truncates the cache so that nextHeight
    becomes height + 1, discarding all cached blocks above height". *)
Definition reorg (c : t) (height : Z) : t :=
  mk (firstHeight c)
     (take (Z.to_nat (height + 1 - firstHeight c)) (window c))
     (synced c).

(** Modelled from the spec: "records that ingestion has caught up ...
    no effect on stored blocks". *)
Definition sync (c : t) : t := mk (firstHeight c) (window c) true.

#[global] Instance ops : BlockCacheOps t := {
  GetFirstHeight := firstHeight;
  GetNextHeight := nextHeight;
  GetLatestHash := latestHash;
  HashMatch := hashMatch;
  Get := get;
  Add := add;
  Reorg := reorg;
  Sync := sync;
}.

End SpecCache.

(** ** The cache as the ingestor calls it *)

(** Modelled from the spec: the same cache (cache.go is not among the
    sources), with [Reorg] numbered as the ingestor uses it. The
    specification's Reorg(h) keeps block h ("nextHeight becomes
    height + 1"). The ingestor logs "REORG: dropping block", [height-1]
    and [GetLatestHash()], the hash of block [height-1], and then calls
    [c.Reorg(height - 1)]: for the code the argument is the lowest height
    dropped, the next height the call leaves. The code's [Reorg(h)] is
    therefore the specification's Reorg(h - 1). *)
Module CodeCache.

Definition reorg (c : SpecCache.t) (height : Z) : SpecCache.t :=
  SpecCache.reorg c (height - 1).

Definition ops : BlockCacheOps SpecCache.t := {|
  GetFirstHeight := SpecCache.firstHeight;
  GetNextHeight := SpecCache.nextHeight;
  GetLatestHash := SpecCache.latestHash;
  HashMatch := SpecCache.hashMatch;
  Get := SpecCache.get;
  Add := SpecCache.add;
  Reorg := reorg;
  Sync := SpecCache.sync;
|}.

End CodeCache.

(** ** Test doubles *)

(** Stand-ins for the node and the libraries, as the package's unit tests
    plug them into [RawRequest]: the replies are read off a script by
    request number; a JSON string is a text between double quotes, a
    verbose block reply is a colon-separated list of transaction ids; a
    raw block is four bytes (height, hash, previous hash, transaction
    count) and whatever follows is left over. *)
Module Mock.

Record Block : Type := mkBlock_ {
  height : Z;
  hash : bytes;
  prev : bytes;
  txids : list bytes;
}.

Definition quoted (s : string) : RawMessage := fst (json_Marshal_string s).

Fixpoint drop_last_quote (s : string) : option string :=
  match s with
  | EmptyString => None
  | String c EmptyString =>
      if Ascii.eqb c (ascii_of_nat 34) then Some EmptyString else None
  | String c rest => String c <$> drop_last_quote rest
  end.

Definition unmarshal_string (raw : RawMessage) : error + string :=
  match raw with
  | String c rest =>
      if Ascii.eqb c (ascii_of_nat 34) then
        match drop_last_quote rest with
        | Some s => inr s
        | None => inl (errorString "unexpected end of JSON input")
        end
      else inl (errorString "json: cannot unmarshal into Go value of type string")
  | EmptyString => inl (errorString "unexpected end of JSON input")
  end.

Definition unmarshal_Getblock1 (raw : RawMessage) : error + ZcashRpcReplyGetblock1 :=
  if String.eqb raw EmptyString then inr (mkGetblock1 [])
  else if String.eqb raw "?" then inl (errorString "invalid character")
  else inr (mkGetblock1 (strings_Split_colon raw)).

Definition unmarshal_Getinfo (raw : RawMessage) : error + ZcashdRpcReplyGetinfo :=
  if String.eqb raw "?" then inl (errorString "invalid character")
  else inr (mkGetinfo raw "/MagicBean/").

Definition unmarshal_Getblockchaininfo (raw : RawMessage)
  : error + ZcashdRpcReplyGetblockchaininfo :=
  if String.eqb raw "?" then inl (errorString "invalid character")
  else inr (mkGetblockchaininfo raw ∅ 0 EmptyString (mkConsensusInfo EmptyString EmptyString) 0).

Definition byte_to_Z (b : byte) : Z := Z.of_N (Byte.to_N b).

Definition parse (data : bytes) : error + (Block * bytes) :=
  match data with
  | h :: hsh :: prv :: n :: rest =>
      inr (mkBlock_ (byte_to_Z h) [hsh] [prv]
                    (replicate (Z.to_nat (byte_to_Z n)) []),
           rest)
  | _ => inl (errorString "could not read block header")
  end.

Definition setTxID (b : Block) (i : nat) (id : bytes) : Block :=
  mkBlock_ (height b) (hash b) (prev b) (<[i := id]> (txids b)).

Definition toCompact (b : Block) : CompactBlock :=
  mkBlock 1 (height b) (hash b) (prev b) 0 []
          (imap (fun i id => mkTx (Z.of_nat i) id 0 [] [] []) (txids b)).

Definition externals (script : list (RawMessage * option error))
    (darkside : bool) : Externals := {|
  RawRequest n _ _ := nth n script (EmptyString, Some (errorString "connection refused"));
  json_Unmarshal_string := unmarshal_string;
  json_Unmarshal_Getblock1 := unmarshal_Getblock1;
  json_Unmarshal_Getinfo := unmarshal_Getinfo;
  json_Unmarshal_Getblockchaininfo := unmarshal_Getblockchaininfo;
  parser_Block := Block;
  ParseFromSlice := parse;
  Block_GetHeight := height;
  Block_NumTransactions b := length (txids b);
  Block_SetTxID := setTxID;
  ToCompact := toCompact;
  Version := "v0.0.0.0-dev";
  GitCommit := EmptyString;
  Branch := EmptyString;
  BuildDate := EmptyString;
  BuildUser := EmptyString;
  DarksideEnabled := darkside;
|}.

(** A block with one-byte hashes and no transactions. *)
Definition block (h : Z) (hsh prv : byte) : CompactBlock :=
  mkBlock 1 h [hsh] [prv] 0 [] [].

(** Blocks 1 to 4, linked. *)
Definition chain4 : list CompactBlock :=
  [block 1 x01 x00; block 2 x02 x01; block 3 x03 x02; block 4 x04 x03].

Definition world (c : SpecCache.t) : World SpecCache.t :=
  mkWorld c 0%nat 0 [] false 0%nat 0%nat [] [].

Definition minus8 : option error :=
  Some (errorString "-8: Block height out of range").

(** The node's tip is some block [ff] and asked for the next block it
    says "not yet" ([node_behind]); or it serves a block of height 5
    with one transaction and then a verbose reply that lists none
    ([node_short_list]). *)
Definition node_behind : Externals :=
  externals [(quoted "ff", None); (EmptyString, minus8)] false.

Definition node_short_list : Externals :=
  externals [(quoted "05ee0401", None); (EmptyString, None)] false.

Definition node_long_list : Externals :=
  externals [(quoted "05ee0401", None); ("aa:bb", None)] false.

Definition node_not_yet : Externals :=
  externals [(EmptyString, minus8)] false.

(** A node that refuses the block request with another code, one whose
    digits start like -8. *)
Definition node_warming_up : Externals :=
  externals [(EmptyString, Some (errorString "-80: Loading block index"))]
            false.

(** A node whose chain has left the cached one after block 3: asked for
    block 5 it serves one that does not chain onto the cached block 4,
    then its own block 4 (hash [dd], on top of block 3) and block 5
    again. *)
Definition node_reorganised : Externals :=
  externals [(quoted "ff", None); (quoted "05eedd00", None);
             (EmptyString, None);
             (quoted "ff", None); (quoted "04dd0300", None);
             (EmptyString, None);
             (quoted "ff", None); (quoted "05eedd00", None);
             (EmptyString, None)] false.

(** A node whose getinfo reply decodes and whose getblockchaininfo
    reply does not. *)
Definition node_garbled : Externals :=
  externals [("v4.7.0", None); ("?", None)] false.

(** A node that has blocks 5, 6 and 7 and nothing above. *)
Definition node_three_blocks : Externals :=
  externals [(quoted "05050400", None); (EmptyString, None);
             (quoted "06060500", None); (EmptyString, None);
             (quoted "07070600", None); (EmptyString, None);
             (EmptyString, minus8)] false.

Definition locals0 : IngestorLocals := mkLocals 0 0.

Definition with_four : World SpecCache.t := world (SpecCache.mk 1 chain4 false).
Definition empty_at_1 : World SpecCache.t := world (SpecCache.mk 1 [] false).

(** A block in memory with two transactions: the first has one output,
    the second one output and one action. *)
Definition heap2 : Pointers.Heap :=
  Pointers.mkHeap
    ∅
    (<[1%positive := mkOutput [x11] [x12] [x13]]>
       (<[2%positive := mkOutput [x21] [x22] [x23]]> ∅))
    (<[1%positive := mkAction [x31] [x32] [x33] [x34]]> ∅)
    (<[1%positive := Pointers.mkTxObj 0 [xaa] 0 [] [1%positive] []]>
       (<[2%positive := Pointers.mkTxObj 1 [xbb] 0 []
                          [2%positive] [1%positive]]> ∅))
    (<[1%positive := Pointers.mkBlockObj 1 7 [x07] [x06] 0 []
                       [1%positive; 2%positive]]> ∅).

Definition block2 : CompactBlock :=
  mkBlock 1 7 [x07] [x06] 0 []
    [mkTx 0 [xaa] 0 [] [mkOutput [x11] [x12] [x13]] [];
     mkTx 1 [xbb] 0 [] [mkOutput [x21] [x22] [x23]]
          [mkAction [x31] [x32] [x33] [x34]]].

End Mock.

(** ** The statements to be checked, as the specification words them *)

(** "An error whose code is -8": the RPC client renders an error as its
    code, a colon and the message, so the text is the code alone or the
    code followed by a colon. *)
Definition carries_code_minus8 (rpcErr : error) : Prop :=
  Error_string rpcErr = "-8" \/
  exists message, Error_string rpcErr = ("-8:" ++ message)%string.

Definition is_request (ev : Event) : Prop :=
  match ev with
  | EvRawRequest _ _ => True
  | _ => False
  end.

(** [w'] differs from [w] by RPC requests only: the same cache, clock,
    life-cycle variables and channels, and only request events added. *)
Definition only_requests {C} (w w' : World C) : Prop :=
  cache w' = cache w /\ clock w' = clock w /\
  ingestorRunning w' = ingestorRunning w /\
  stopWaiting w' = stopWaiting w /\ spawned w' = spawned w /\
  blockOut w' = blockOut w /\ errOut w' = errOut w /\
  exists reqs, events w' = events w ++ reqs /\ Forall is_request reqs /\
               requests w' = (requests w + length reqs)%nat.

(** The heights [GetBlockRange] is to serve, in the order of emission:
    the inclusive range between the two bounds, ascending when
    [start <= end], descending otherwise. *)
Definition range_heights (start end_ : Z) : list Z :=
  if end_ <? start then reverse (seqZ end_ (start - end_ + 1))
  else seqZ start (end_ - start + 1).

Section Statements.

Context {C : Type} {BC : BlockCacheOps C} {E : Externals}.

(** The stream of [GetBlockRange] in the specification's words: one
    [GetBlock] per height, in the order given, each block filtered and
    emitted; the first error is delivered once on the error channel and
    ends the stream; after the last height a single nil is delivered on
    the error channel. *)
Fixpoint stream_heights (hs : list Z) (spamFilterThreshold : Z)
  : M C LoopExit :=
  match hs with
  | [] => '_ <- send_err None ;; ret Returned
  | h :: hs' =>
      '(block, err) <- GetBlock h ;;
      match err with
      | Some err => '_ <- send_err (Some err) ;; ret Returned
      | None =>
          match FilterSpammyBlock_value block spamFilterThreshold with
          | Aborted why => abort why
          | Done filtered =>
              '_ <- send_block filtered ;;
              stream_heights hs' spamFilterThreshold
          end
      end
  end.

(** The world in which an iteration of the ingestor that starts in [w]
    calls the fetcher: after the tip-hash request. *)
Definition world_at_fetch (w : World C) : World C :=
  snd (rawRequest "getbestblockhash" [] w).

(** An iteration starting in [w] gets as far as fetching a block: no
    stop is requested, the tip hash arrives and decodes, and it is not
    the cache's latest hash. *)
Definition reaches_fetch (w : World C) : Prop :=
  stopWaiting w = 0%nat /\
  exists result hashHex best,
    RawRequest (requests w) "getbestblockhash" [] = (result, None) /\
    json_Unmarshal_string result = inr hashHex /\
    hex_DecodeString hashHex = inr best /\
    best <> Reverse (GetLatestHash (cache w)).

(** The events an iteration starting in [w] and ending in [w'] adds
    after the fetch that ended in [w2]. *)
Definition events_after (w2 w' : World C) : list Event :=
  drop (length (events w2)) (events w').

Definition is_mutation (ev : Event) : Prop :=
  match ev with
  | EvAdd _ _ | EvReorg _ => True
  | _ => False
  end.

(** "If the fetch returns not yet available (nil, nil): loop back to
    step 2 after a short wait", with nothing done to the cache. *)
Definition retries_quietly (locals : IngestorLocals) (w : World C) : Prop :=
  forall w2,
    reaches_fetch w ->
    getBlockFromRPC (GetNextHeight (cache w)) (world_at_fetch w)
      = (Done (None, None), w2) ->
    exists locals' w',
      BlockIngestor_body locals w = (Done (Continue locals'), w') /\
      (forall ev, ev ∈ events_after w2 w' -> ~ is_mutation ev) /\
      (exists d, 0 < d /\ EvSleep d ∈ events_after w2 w').


(** "exit this bootstrapping attempt and let the caller retry ingestion
    from scratch": once the loop started by [startIngestor] has
    returned, [startIngestor] starts another. *)
Definition restarts_after_exit (fuel : nat) (w : World C) : Prop :=
  forall w1 w2,
    startIngestor w = (Done tt, w1) ->
    BlockIngestor fuel 0 w1 = (Done Returned, w2) ->
    spawned (snd (startIngestor w2)) = S (spawned w2).

(** One of the two replies [GetLightdInfo] asks for arrives without an
    RPC error and does not decode. *)
Definition reply_fails_to_unmarshal (w : World C) : Prop :=
  (exists result err,
      RawRequest (requests w) "getinfo" [] = (result, None) /\
      json_Unmarshal_Getinfo result = inl err) \/
  (exists result1 getinfoReply result2 err,
      RawRequest (requests w) "getinfo" [] = (result1, None) /\
      json_Unmarshal_Getinfo result1 = inr getinfoReply /\
      RawRequest (S (requests w)) "getblockchaininfo" [] = (result2, None) /\
      json_Unmarshal_Getblockchaininfo result2 = inl err).

(** The first [getblock] reply for [height] is a block that parses, with
    nothing left over and the height asked for. *)
Definition first_reply_parses (height : Z) (w : World C)
    (block : parser_Block) : Prop :=
  exists result blockDataHex blockData,
    RawRequest (requests w) "getblock"
               [fst (json_Marshal_string (GoInt.Itoa height)); "0"]
      = (result, None) /\
    json_Unmarshal_string result = inr blockDataHex /\
    hex_DecodeString blockDataHex = inr blockData /\
    ParseFromSlice blockData = inr (block, []) /\
    Block_GetHeight block = height.

(** The verbose reply lists fewer transaction ids, all of them hex,
    than the block has transactions. *)
Definition verbose_reply_too_short (height : Z) (w : World C)
    (block : parser_Block) : Prop :=
  exists result block1,
    RawRequest (S (requests w)) "getblock"
               [fst (json_Marshal_string (GoInt.Itoa height)); "1"]
      = (result, None) /\
    json_Unmarshal_Getblock1 result = inr block1 /\
    Forall (fun s => exists txid, hex_DecodeString s = inr txid) (Tx block1) /\
    (length (Tx block1) < Block_NumTransactions block)%nat.

(** [b] is what the filter makes of the block [GetBlock] returns for
    height [h], and [e] is the error [GetBlock] returns for [h], in a
    world with the cache of [w]. *)
Definition served (spamFilterThreshold : Z) (w : World C) (h : Z)
    (b : option CompactBlock) : Prop :=
  exists w_a w_b block,
    cache w_a = cache w /\
    GetBlock h w_a = (Done (block, None), w_b) /\
    FilterSpammyBlock_value block spamFilterThreshold = Done b.

Definition failed_at (w : World C) (h : Z) (e : error) : Prop :=
  exists w_a w_b block,
    cache w_a = cache w /\
    GetBlock h w_a = (Done (block, Some e), w_b).

End Statements.

(** A computation that leaves [ingestorRunning] and [spawned] alone. *)
Definition keeps_lifecycle {C A} (m : M C A) : Prop :=
  forall w, ingestorRunning (snd (m w)) = ingestorRunning w /\
            spawned (snd (m w)) = spawned w.

(** ** The rest of the package *)

(** [hex.EncodeToString]: two lower-case digits per byte, high nibble
    first ([hextable[v>>4]], [hextable[v&0x0f]]). *)
Definition hextable (n : N) : ascii :=
  if (n <? 10)%N then ascii_of_N (48 + n) else ascii_of_N (87 + n).

Fixpoint hex_EncodeToString (src : bytes) : string :=
  match src with
  | [] => EmptyString
  | v :: rest =>
      String (hextable (Byte.to_N v / 16))
             (String (hextable (Byte.to_N v mod 16)) (hex_EncodeToString rest))
  end.

Definition displayHash (hash : bytes) : string :=
  hex_EncodeToString (Reverse hash).

(** [strings.Join(pieces, ":")] *)
Fixpoint strings_Join_colon (pieces : list string) : string :=
  match pieces with
  | [] => EmptyString
  | [piece] => piece
  | piece :: rest => (piece ++ ":" ++ strings_Join_colon rest)%string
  end.

(** A character is a hex digit, and a string is made of hex digits. *)
Definition is_hex_digit (c : ascii) : Prop := fromHexChar c <> None.

Fixpoint all_hex_digits (s : string) : Prop :=
  match s with
  | EmptyString => True
  | String c rest => is_hex_digit c /\ all_hex_digits rest
  end.

Fixpoint contains_colon (s : string) : Prop :=
  match s with
  | EmptyString => False
  | String c rest => c = ":"%char \/ contains_colon rest
  end.

Section MorePackage.

Context {C : Type} {BC : BlockCacheOps C} {E : Externals}.

Definition getBestBlockHash : M C (bytes * option error) :=
  '(result, rpcErr) <- rawRequest "getbestblockhash" [] ;;
  match rpcErr with
  | Some _ => ret ([], rpcErr)
  | None =>
  match json_Unmarshal_string result with
  | inl err => ret ([], Some err)
  | inr hash =>
  match hex_DecodeString hash with
  | inl err => ret ([], Some err)
  | inr hashbytes => ret (Reverse hashbytes, None)
  end end end.

(** The [for] loop of [FirstRPC], entered with [retryCount] and for at
    most [fuel] iterations. The [Log.Warn] lines, which the world's
    events do not carry, are collected in [warned] (oldest first) and
    returned beside the world. *)
Fixpoint FirstRPC_loop (fuel : nat) (retryCount : Z) (warned : list string)
    (w : World C) : Res LoopExit * list string * World C :=
  match fuel with
  | O => (Done StillRunning, warned, w)
  | S fuel' =>
      let reply := RawRequest (requests w) "getblockchaininfo" [] in
      let w1 := snd (rawRequest "getblockchaininfo" [] w) in
      match snd reply with
      | None =>
          let warned1 :=
            if 0 <? retryCount
            then warned ++ ["getblockchaininfo RPC successful"]
            else warned in
          match json_Unmarshal_Getblockchaininfo (fst reply) with
          | inl _ =>
              (Aborted (LogFatal "error parsing JSON getblockchaininfo response: "),
               warned1, w1)
          | inr _ => (Done Returned, warned1, w1)
          end
      | Some _ =>
          let retryCount := GoInt.add retryCount 1 in
          if 10 <? retryCount then
            (Aborted (LogFatal
               "unable to issue getblockchaininfo RPC call to zcashd node"),
             warned, w1)
          else
            let warned1 :=
              warned ++ ["error with getblockchaininfo rpc, retrying..."] in
            let d := GoInt.wrap
                       (GoInt.wrap (10 + GoInt.wrap (retryCount * 5)) * Second) in
            FirstRPC_loop fuel' retryCount warned1 (snd (Time_Sleep d w1))
      end
  end.

Definition FirstRPC (fuel : nat) (w : World C)
  : Res LoopExit * list string * World C :=
  FirstRPC_loop fuel 0 [] w.

(** The parsed block after the loop over its transactions has set the
    ids [ids], from transaction [i] on, each converted from big-endian. *)
Fixpoint overwrite_txids (i : nat) (ids : list bytes) (block : parser_Block)
  : parser_Block :=
  match ids with
  | [] => block
  | id :: ids' =>
      overwrite_txids (S i) ids' (Block_SetTxID block i (Reverse id))
  end.

(** The verbose reply lists at least as many ids as the block has
    transactions, and the first of them decode to [ids]. *)
Definition verbose_reply_lists (height : Z) (w : World C)
    (block : parser_Block) (ids : list bytes) : Prop :=
  exists result block1,
    RawRequest (S (requests w)) "getblock"
               [fst (json_Marshal_string (GoInt.Itoa height)); "1"]
      = (result, None) /\
    json_Unmarshal_Getblock1 result = inr block1 /\
    length ids = Block_NumTransactions block /\
    Forall2 (fun s id => hex_DecodeString s = inr id)
            (take (Block_NumTransactions block) (Tx block1)) ids.

(** The verbose reply has, before its list runs out, an id that is no
    hex string, with cause [err]. *)
Definition verbose_reply_bad_txid (height : Z) (w : World C)
    (block : parser_Block) (err : error) : Prop :=
  exists result block1 (k : nat) s,
    RawRequest (S (requests w)) "getblock"
               [fst (json_Marshal_string (GoInt.Itoa height)); "1"]
      = (result, None) /\
    json_Unmarshal_Getblock1 result = inr block1 /\
    (k < Block_NumTransactions block)%nat /\
    Tx block1 !! k = Some s /\ hex_DecodeString s = inl err /\
    Forall (fun s => exists txid, hex_DecodeString s = inr txid)
           (take k (Tx block1)).

(** An iteration starting in [w] is not stopped and receives the tip hash
    [best]. *)
Definition tip_hash_is (w : World C) (best : bytes) : Prop :=
  stopWaiting w = 0%nat /\
  exists result hashHex,
    RawRequest (requests w) "getbestblockhash" [] = (result, None) /\
    json_Unmarshal_string result = inr hashHex /\
    hex_DecodeString hashHex = inr best.

(** The next [k] requests, all of them [getblockchaininfo], fail. *)
Definition next_requests_fail (w : World C) (k : nat) : Prop :=
  forall i, (i < k)%nat ->
    snd (RawRequest (requests w + i) "getblockchaininfo" []) <> None.

(** The events of [k] failed attempts of [FirstRPC] made with retry
    counts [r + 1] to [r + k]: a request, then the back-off sleep. *)
Fixpoint backoff_events (k : nat) (r : Z) : list Event :=
  match k with
  | O => []
  | S k' =>
      EvRawRequest "getblockchaininfo" []
        :: EvSleep ((10 + (r + 1) * 5) * Second)
        :: backoff_events k' (r + 1)
  end.

(** The time those [k] back-off sleeps take. *)
Fixpoint backoff_time (k : nat) (r : Z) : Z :=
  match k with
  | O => 0
  | S k' => (10 + (r + 1) * 5) * Second + backoff_time k' (r + 1)
  end.

(** Every height of the range is in the cache. *)
Definition range_cached (w : World C) (start end_ : Z) : Prop :=
  forall h, Z.min start end_ <= h <= Z.max start end_ ->
            is_Some (Get (cache w) h).

(** What [GetBlockRange] emits for heights that are all cached. *)
Definition cached_blocks (c : C) (spamFilterThreshold : Z) (hs : list Z)
  : list (option CompactBlock) :=
  map (fun h =>
         if spamFilterThreshold =? 0 then Get c h
         else filter_block spamFilterThreshold <$> Get c h) hs.

End MorePackage.

(** What the filter leaves of a transaction it clears. *)
Definition clear_tx (tx : CompactTx) : CompactTx :=
  mkTx (Index tx) (TxHash tx) (Fee tx) (Spends tx)
       (map clear_output (Outputs tx)) (map clear_action (Actions tx)).

(** No transaction of the block has more than [t] outputs and actions. *)
Definition nothing_spammy (t : Z) (b : CompactBlock) : Prop :=
  Forall (fun tx =>
            Z.of_nat (length (Outputs tx)) + Z.of_nat (length (Actions tx)) <= t)
         (Vtx b).

(** A computation that does not add to the senders waiting on
    [stopIngestorChan]. *)
Definition releases_only {C A} (m : M C A) : Prop :=
  forall w, (stopWaiting (snd (m w)) <= stopWaiting w)%nat.

(** A computation under which the count of RPC requests made does not
    go down. *)
Definition counts_up {C A} (m : M C A) : Prop :=
  forall w, (requests w <= requests (snd (m w)))%nat.

(** More test doubles. *)
Module MoreMock.
Import Mock.

(** A node that fails twice and then answers. *)
Definition node_slow_start : Externals :=
  externals [(EmptyString, Some (errorString "connection refused"));
             (EmptyString, Some (errorString "connection refused"));
             ("main", None)] false.

(** A node that answers both information requests. *)
Definition node_info : Externals :=
  externals [("v4.7.0", None); ("main", None)] true.

(** A node that never answers. *)
Definition node_down : Externals := externals [] false.

(** A node that serves a block of height 5 with two transactions and lists
    their ids [aabb] and [cc]. *)
Definition node_two_txs : Externals :=
  externals [(quoted "05ee0402", None); ("aabb:cc", None)] false.

(** The same block, with a second id that is no hex string. *)
Definition node_bad_txid : Externals :=
  externals [(quoted "05ee0402", None); ("aabb:zz", None)] false.

(** A node whose block reply is not hex. *)
Definition node_not_hex : Externals :=
  externals [(quoted "xyz", None)] false.

(** A node whose tip is block 4 of [chain4]. *)
Definition node_in_sync : Externals :=
  externals [(quoted "04", None)] false.

(** A node that has block 5 on top of block 4. *)
Definition node_next_block : Externals :=
  externals [(quoted "05", None); (quoted "05050400", None);
             (EmptyString, None)] false.

(** A node whose block request fails for another reason than -8. *)
Definition node_broken : Externals :=
  externals [(quoted "ff", None);
             (EmptyString, Some (errorString "-28: Loading block index"))] false.

(** A node that answers the tip-hash request with the display form of
    the hash [01 02 03]. *)
Definition node_tip_010203 : Externals :=
  externals [(quoted (displayHash [x01; x02; x03]), None)] false.

Definition running (w : World SpecCache.t) : World SpecCache.t :=
  mkWorld (cache w) (requests w) (clock w) (events w) true
          (stopWaiting w) (spawned w) (blockOut w) (errOut w).

(** A block in memory whose only transaction has one output. *)
Definition heap1 : Pointers.Heap :=
  Pointers.mkHeap
    ∅
    (<[1%positive := mkOutput [x11] [x12] [x13]]> ∅)
    ∅
    (<[1%positive := Pointers.mkTxObj 0 [xaa] 0 [] [1%positive] []]> ∅)
    (<[1%positive := Pointers.mkBlockObj 1 7 [x07] [x06] 0 []
                       [1%positive]]> ∅).

Definition block1 : CompactBlock :=
  mkBlock 1 7 [x07] [x06] 0 []
    [mkTx 0 [xaa] 0 [] [mkOutput [x11] [x12] [x13]] []].

End MoreMock.

(** * Proofs *)

(** ** Go's [int] *)

Module GoIntFacts.
Import GoInt.

Lemma wrap_id z : in_range z -> wrap z = z.
Proof.
  unfold in_range, wrap, min_int, max_int. intros Hz.
  rewrite Z.mod_small; lia.
Qed.

Lemma wrap_in_range z : in_range (wrap z).
Proof.
  unfold in_range, wrap, min_int, max_int.
  pose proof (Z.mod_pos_bound (z + 2 ^ 63) (2 ^ 64)). lia.
Qed.

(** Wrapping an operand first does not change the wrapped difference. *)
Lemma wrap_sub_wrap a b : wrap (a - wrap b) = wrap (a - b).
Proof.
  unfold wrap. f_equal.
  replace (a - ((b + 2 ^ 63) mod 2 ^ 64 - 2 ^ 63) + 2 ^ 63)
    with ((a + 2 ^ 64) - (b + 2 ^ 63) mod 2 ^ 64) by lia.
  rewrite Zminus_mod_idemp_r. f_equal. lia.
Qed.

Lemma add_1_small i : in_range i -> i < max_int -> add i 1 = i + 1.
Proof.
  intros Hi Hlt. unfold add. apply wrap_id.
  unfold in_range, min_int, max_int in *. lia.
Qed.

Lemma sub_sub_in_range high i low :
  in_range (high - (i - low)) -> sub high (sub i low) = high - (i - low).
Proof.
  intros Hr. unfold sub. rewrite wrap_sub_wrap. by apply wrap_id.
Qed.

End GoIntFacts.

(** ** The fetcher *)

Ltac solve_only_requests :=
  unfold only_requests; simpl;
  repeat split; try reflexivity;
  eexists; split;
  [ first [ exact (eq_sym (app_nil_r _))
          | exact (eq_sym (app_assoc _ _ _))
          | reflexivity ]
  | split; [ repeat constructor | simpl; lia ] ].

Section FetcherFacts.

Context {C : Type} {BC : BlockCacheOps C} {E : Externals}.

Lemma only_requests_refl (w : World C) : only_requests w w.
Proof.
  unfold only_requests. repeat split; try reflexivity.
  exists []. rewrite app_nil_r. simpl. repeat split; auto with lia.
Qed.

Lemma only_requests_trans (w1 w2 w3 : World C) :
  only_requests w1 w2 -> only_requests w2 w3 -> only_requests w1 w3.
Proof.
  unfold only_requests.
  intros (?&?&?&?&?&?&?&r1&E1&F1&N1) (?&?&?&?&?&?&?&r2&E2&F2&N2).
  repeat split; try congruence.
  exists (r1 ++ r2). rewrite E2, E1, <- app_assoc, N2, N1, length_app.
  repeat split; [by apply Forall_app | lia].
Qed.

Lemma rawRequest_only_requests method params (w : World C) :
  only_requests w (snd (rawRequest method params w)).
Proof.
  unfold only_requests, rawRequest. simpl. repeat split; try reflexivity.
  exists [EvRawRequest method params]. simpl.
  repeat split; [repeat constructor | lia].
Qed.

(** The fetcher touches nothing but the RPC client. *)
Lemma getBlockFromRPC_only_requests height (w : World C) :
  only_requests w (snd (getBlockFromRPC height w)).
Proof.
  unfold getBlockFromRPC. simpl. unfold bind, rawRequest, ret, abort. simpl.
  repeat (case_match; simpl); solve_only_requests.
Qed.

End FetcherFacts.

(** ** The test for code -8 *)

Lemma strings_Split_colon_nonempty s : strings_Split_colon s <> [].
Proof.
  destruct s as [|c rest]; simpl; [discriminate|].
  destruct (Ascii.eqb c ":"); [discriminate|].
  destruct (strings_Split_colon rest); discriminate.
Qed.

Lemma strings_Join_Split_colon s :
  strings_Join_colon (strings_Split_colon s) = s.
Proof.
  induction s as [|c rest IH]; [reflexivity|]. simpl.
  pose proof (strings_Split_colon_nonempty rest) as Hne.
  destruct (Ascii.eqb_spec c ":") as [->|Hc].
  - destruct (strings_Split_colon rest) as [|p ps]; [done|].
    simpl in *. by rewrite IH.
  - destruct (strings_Split_colon rest) as [|p ps]; [done|].
    destruct ps as [|p' ps]; simpl in *; by rewrite <- IH.
Qed.

(** The test the fetcher applies to the text of an RPC error, read as a
    statement about that text. *)
Lemma is_code_minus8_text (rpcErr : error) :
  is_code_minus8 rpcErr = true <-> carries_code_minus8 rpcErr.
Proof.
  unfold is_code_minus8, carries_code_minus8.
  set (s := Error_string rpcErr). clearbody s. split.
  - intros Htest.
    pose proof (strings_Join_Split_colon s) as Hjoin.
    destruct (strings_Split_colon s) as [|first pieces]; [discriminate|].
    apply String.eqb_eq in Htest. subst first.
    destruct pieces as [|p ps]; simpl in Hjoin.
    + left. by rewrite <- Hjoin.
    + right. eexists. rewrite <- Hjoin. reflexivity.
  - intros [->|[rest ->]]; [reflexivity|].
    simpl. destruct (strings_Split_colon rest); reflexivity.
Qed.

Section FetcherClaims.

Context {C : Type} {BC : BlockCacheOps C} {E : Externals}.

(** The test of the code for "height not yet produced" accepts the
    errors whose text starts with the code -8 and a colon. *)
Lemma is_code_minus8_prefix (text : string) :
  is_code_minus8 (errorString ("-8:" ++ text)%string) = true.
Proof.
  unfold is_code_minus8. simpl.
  destruct (strings_Split_colon text); reflexivity.
Qed.

(** C5: when the non-verbose getblock request for a height is answered
    with an RPC error, getBlockFromRPC returns (nil, nil) if the error
    carries code -8 (its text is "-8" or starts with "-8:"), and for
    every other RPC error a nil block with a non-nil error, "error
    requesting block" wrapped around the RPC error. *)
Theorem getBlockFromRPC_rpc_error height (w : World C) result rpcErr :
  RawRequest (requests w) "getblock"
             [fst (json_Marshal_string (GoInt.Itoa height)); "0"]
    = (result, Some rpcErr) ->
  (carries_code_minus8 rpcErr ->
   fst (getBlockFromRPC height w) = Done (None, None)) /\
  (~ carries_code_minus8 rpcErr ->
   fst (getBlockFromRPC height w)
   = Done (None, Some (errors_Wrap rpcErr "error requesting block"))).
Proof.
  intros Hreq.
  assert (Hrun : fst (getBlockFromRPC height w)
                 = if is_code_minus8 rpcErr then Done (None, None)
                   else Done (None, Some (errors_Wrap rpcErr
                                            "error requesting block"))).
  { unfold getBlockFromRPC. simpl in *.
    unfold bind, rawRequest. simpl. rewrite Hreq.
    destruct (is_code_minus8 rpcErr); reflexivity. }
  rewrite Hrun. pose proof (is_code_minus8_text rpcErr) as Htext.
  destruct (is_code_minus8 rpcErr); split; intros Hcode.
  - reflexivity.
  - exfalso. apply Hcode, Htext. reflexivity.
  - apply Htext in Hcode. discriminate.
  - reflexivity.
Qed.

(** A first reply that is not a JSON string, not hex, not a block,
    longer than a block or a block of another height comes back as a
    non-nil error, and no second request is made. *)
Lemma getBlockFromRPC_malformed_reply height (w : World C) result :
  RawRequest (requests w) "getblock"
             [fst (json_Marshal_string (GoInt.Itoa height)); "0"]
    = (result, None) ->
  match json_Unmarshal_string result with
  | inl _ => True
  | inr blockDataHex =>
      match hex_DecodeString blockDataHex with
      | inl _ => True
      | inr blockData =>
          match ParseFromSlice blockData with
          | inl _ => True
          | inr (block, rest) =>
              rest <> [] \/ Block_GetHeight block <> height
          end
      end
  end ->
  exists err, getBlockFromRPC height w
              = (Done (None, Some err), snd (rawRequest "getblock"
                   [fst (json_Marshal_string (GoInt.Itoa height)); "0"] w)).
Proof.
  intros Hreq Hbad. unfold getBlockFromRPC. simpl in *.
  unfold bind, rawRequest, ret. simpl. rewrite Hreq.
  destruct (json_Unmarshal_string result) as [err|blockDataHex]; [eauto|].
  destruct (hex_DecodeString blockDataHex) as [err|blockData]; [eauto|].
  destruct (ParseFromSlice blockData) as [err|[block rest]]; [eauto|].
  destruct rest as [|r rest]; simpl; [|eauto].
  destruct Hbad as [Hbad|Hbad]; [done|].
  apply Z.eqb_neq in Hbad. rewrite Hbad. simpl. eauto.
Qed.

(** The loop over the transactions runs off the end of a list of ids
    that is too short. *)
Lemma set_txids_short_list (n i : nat) (tx : list string) block :
  Forall (fun s => exists txid, hex_DecodeString s = inr txid) tx ->
  (i <= length tx < i + n)%nat ->
  set_txids n i tx block = Aborted (Panic "index out of range").
Proof.
  intros Hhex. revert i block.
  induction n as [|n IH]; intros i block Hlen; [lia|].
  simpl. destruct (tx !! i) as [s|] eqn:Hi; [|reflexivity].
  assert (Hs : exists txid, hex_DecodeString s = inr txid).
  { exact (Forall_lookup_1 _ _ _ _ Hhex Hi). }
  destruct Hs as [txid ->].
  apply lookup_lt_Some in Hi. apply IH. lia.
Qed.

Lemma getBlockFromRPC_short_txid_list height (w : World C) block :
  first_reply_parses height w block ->
  verbose_reply_too_short height w block ->
  fst (getBlockFromRPC height w) = Aborted (Panic "index out of range").
Proof.
  intros (result & blockDataHex & blockData & Hreq & Hjson & Hhex & Hparse & Hh)
         (result2 & block1 & Hreq2 & Hjson2 & Hids & Hshort).
  unfold getBlockFromRPC. simpl in *.
  unfold bind, rawRequest, ret, abort. simpl.
  rewrite Hreq, Hjson, Hhex, Hparse. simpl.
  rewrite (proj2 (Z.eqb_eq _ _) Hh). simpl.
  rewrite Hreq2, Hjson2.
  rewrite set_txids_short_list; [reflexivity|exact Hids|lia].
Qed.

Lemma GetBlock_only_requests height (w : World C) :
  only_requests w (snd (GetBlock height w)).
Proof.
  unfold GetBlock, bind, read_cache, ret. simpl.
  destruct (Get (cache w) height) as [b|]; [apply only_requests_refl|].
  pose proof (getBlockFromRPC_only_requests height w) as F.
  destruct (getBlockFromRPC height w) as [[[block err]|why] w1]; simpl in *;
    [|exact F].
  destruct err; [exact F|]. destruct block; exact F.
Qed.

(** C8: GetBlock, hit or miss, leaves the cache as it found it (so
    GetFirstHeight, GetNextHeight and every Get answer as before); all
    it adds to the world is RPC requests. *)
Theorem GetBlock_leaves_cache height (w : World C) :
  cache (snd (GetBlock height w)) = cache w /\
  GetFirstHeight (cache (snd (GetBlock height w))) = GetFirstHeight (cache w) /\
  GetNextHeight (cache (snd (GetBlock height w))) = GetNextHeight (cache w) /\
  (forall h, Get (cache (snd (GetBlock height w))) h = Get (cache w) h) /\
  exists reqs,
    events (snd (GetBlock height w)) = events w ++ reqs /\
    Forall is_request reqs.
Proof.
  destruct (GetBlock_only_requests height w)
    as (Hc & _ & _ & _ & _ & _ & _ & reqs & He & Hf & _).
  rewrite Hc. repeat split; try reflexivity. eauto.
Qed.

(** C9: when the cache has no block at the height and the fetcher
    answers (nil, nil), GetBlock returns a nil block and the error
    "block requested is newer than latest block". *)
Theorem GetBlock_newer_than_tip height (w w' : World C) :
  Get (cache w) height = None ->
  getBlockFromRPC height w = (Done (None, None), w') ->
  GetBlock height w
    = (Done (None,
             Some (errors_New "block requested is newer than latest block")),
       w').
Proof.
  intros Hmiss Hfetch. unfold GetBlock, bind, read_cache, ret. simpl.
  rewrite Hmiss, Hfetch. reflexivity.
Qed.

(** GetBlock never answers with a nil block and a nil error. *)
Lemma GetBlock_not_nil_nil height (w w' : World C) :
  GetBlock height w <> (Done (None, None), w').
Proof.
  unfold GetBlock, bind, read_cache, ret. simpl.
  destruct (Get (cache w) height) as [b|]; [congruence|].
  destruct (getBlockFromRPC height w) as [[[block err]|why] w1]; [|congruence].
  destruct err; [congruence|]. destruct block; congruence.
Qed.

(** C10: when the getinfo reply, or after it the getblockchaininfo
    reply, arrives without an RPC error and fails to unmarshal,
    GetLightdInfo returns a nil result and a nil error, and leaves no
    trace but its requests. *)
Theorem GetLightdInfo_swallows_unmarshal_error (w : World C) :
  reply_fails_to_unmarshal w ->
  fst (GetLightdInfo w) = Done (None, None) /\
  only_requests w (snd (GetLightdInfo w)).
Proof.
  unfold GetLightdInfo, bind, rawRequest, ret.
  intros [(result & err & Hreq & Hjson)
         |(result1 & getinfoReply & result2 & err & Hreq & Hjson & Hreq2 & Hjson2)];
    simpl; rewrite Hreq, Hjson; simpl.
  - split; [reflexivity|solve_only_requests].
  - rewrite Hreq2, Hjson2. split; [reflexivity|solve_only_requests].
Qed.

End FetcherClaims.

(** ** The ingestor *)

Section IngestorClaims.

Context {C : Type} {BC : BlockCacheOps C} {E : Externals}.

(** An iteration that gets as far as the fetch, and whose fetch returns
    without error, goes on with the rest of the body. *)
Lemma body_after_fetch locals (w w2 : World C) block :
  reaches_fetch w ->
  getBlockFromRPC (GetNextHeight (cache w)) (world_at_fetch w)
    = (Done (block, None), w2) ->
  BlockIngestor_body locals w
    = ingest_fetched locals (GetNextHeight (cache w)) block w2.
Proof.
  intros (Hstop & result & hashHex & best & Hreq & Hjson & Hhex & Hne) Hfetch.
  unfold world_at_fetch in Hfetch.
  unfold BlockIngestor_body, bind at 1, try_recv_stop. rewrite Hstop.
  unfold bind at 1. unfold rawRequest in *. simpl in *. rewrite Hreq.
  rewrite Hjson, Hhex. unfold bind at 1. unfold read_cache at 1. simpl.
  unfold bind at 1. unfold read_cache at 1. simpl.
  rewrite bool_decide_false by exact Hne.
  unfold bind at 1. rewrite Hfetch. reflexivity.
Qed.

Lemma events_after_app (w2 w' : World C) evs :
  events w' = events w2 ++ evs -> events_after w2 w' = evs.
Proof.
  intros Hev. unfold events_after. rewrite Hev. by rewrite drop_app_length.
Qed.

(** The rest of the body when the fetched block is not appended: the
    block is nil, or it does not chain onto the cache's tail. *)
Lemma ingest_fetched_no_match locals height block (w2 : World C) :
  match block with
  | None => True
  | Some b => HashMatch (cache w2) (PrevHash b) = false
  end ->
  exists exit w',
    ingest_fetched locals height block w2 = (Done exit, w') /\
    if height =? GetFirstHeight (cache w2) then
      exit = Return_ /\
      events_after w2 w'
        = [EvSync;
           EvLogInfo "Waiting for zcashd height to reach Sapling activation height ";
           EvSleep (20 * Second)] /\
      cache w' = Sync (cache w2)
    else
      exit = Continue locals /\
      events_after w2 w'
        = [EvLogInfo "REORG: dropping block "; EvReorg (GoInt.sub height 1)] /\
      cache w' = Reorg (cache w2) (GoInt.sub height 1).
Proof.
  intros Hno.
  assert (Hrest :
    ingest_fetched locals height block w2
    = (first <- read_cache GetFirstHeight ;;
       if height =? first then
         '_ <- cache_Sync ;;
         '_ <- Log_Info
                 "Waiting for zcashd height to reach Sapling activation height " ;;
         '_ <- Time_Sleep (20 * Second) ;;
         ret Return_
       else
         '_ <- Log_Info "REORG: dropping block " ;;
         '_ <- cache_Reorg (GoInt.sub height 1) ;;
         ret (Continue locals)) w2).
  { unfold ingest_fetched. destruct block as [b|].
    - unfold bind at 1. unfold read_cache at 1. rewrite Hno. reflexivity.
    - reflexivity. }
  rewrite Hrest. clear Hrest.
  unfold bind at 1. unfold read_cache at 1. cbv beta iota.
  destruct (height =? GetFirstHeight (cache w2)).
  - eexists _, _. split; [reflexivity|].
    split; [reflexivity|]. split; [|reflexivity].
    apply events_after_app. simpl. rewrite <- !app_assoc. reflexivity.
  - eexists _, _. split; [reflexivity|].
    split; [reflexivity|]. split; [|reflexivity].
    apply events_after_app. simpl. rewrite <- !app_assoc. reflexivity.
Qed.

(** C1 (as the code has it): in an iteration whose fetch returns
    (nil, nil) the ingestor never calls Add; if the next height is the
    first height it calls Sync, waits 20 seconds and leaves the loop;
    otherwise it calls Reorg(GetNextHeight() - 1) and goes on to the
    next iteration without waiting. *)
Theorem ingestor_fetch_not_available locals (w w2 : World C) :
  reaches_fetch w ->
  getBlockFromRPC (GetNextHeight (cache w)) (world_at_fetch w)
    = (Done (None, None), w2) ->
  exists exit w',
    BlockIngestor_body locals w = (Done exit, w') /\
    if GetNextHeight (cache w) =? GetFirstHeight (cache w) then
      exit = Return_ /\
      events_after w2 w'
        = [EvSync;
           EvLogInfo "Waiting for zcashd height to reach Sapling activation height ";
           EvSleep (20 * Second)] /\
      cache w' = Sync (cache w)
    else
      exit = Continue locals /\
      events_after w2 w'
        = [EvLogInfo "REORG: dropping block ";
           EvReorg (GoInt.sub (GetNextHeight (cache w)) 1)] /\
      cache w' = Reorg (cache w) (GoInt.sub (GetNextHeight (cache w)) 1).
Proof.
  intros Hreach Hfetch.
  rewrite (body_after_fetch locals w w2 None Hreach Hfetch).
  assert (Hc : cache w2 = cache w).
  { pose proof (getBlockFromRPC_only_requests
                  (GetNextHeight (cache w)) (world_at_fetch w)) as F.
    rewrite Hfetch in F. destruct F as (Hc & _). exact Hc. }
  rewrite <- Hc.
  apply (ingest_fetched_no_match locals _ None w2 I).
Qed.



End IngestorClaims.

(** On the cache of the specification, Reorg(GetNextHeight() - 2) drops
    the most recently ingested block and no other: the next height goes
    down by one and the blocks below stay. *)
Lemma spec_reorg_two_back_drops_tail (c : SpecCache.t) :
  SpecCache.window c <> [] ->
  let c' := SpecCache.reorg c (SpecCache.nextHeight c - 2) in
  SpecCache.nextHeight c' = SpecCache.nextHeight c - 1 /\
  SpecCache.window c
    = SpecCache.window c' ++ drop (length (SpecCache.window c) - 1)
                                  (SpecCache.window c) /\
  SpecCache.firstHeight c' = SpecCache.firstHeight c.
Proof.
  intros Hne. unfold SpecCache.reorg, SpecCache.nextHeight. simpl.
  assert (Hlen : (0 < length (SpecCache.window c))%nat).
  { destruct (SpecCache.window c); [done|simpl; lia]. }
  replace (Z.to_nat (SpecCache.firstHeight c
                     + Z.of_nat (length (SpecCache.window c)) - 2 + 1
                     - SpecCache.firstHeight c))
    with (length (SpecCache.window c) - 1)%nat by lia.
  split_and!; [|by rewrite take_drop|reflexivity].
  rewrite length_take. lia.
Qed.

(** ** The ingestor's life cycle *)

Section Lifecycle.

Context {C : Type} {BC : BlockCacheOps C} {E : Externals}.

Lemma keeps_ret {A} (a : A) : keeps_lifecycle (C:=C) (ret a).
Proof. intros w. split; reflexivity. Qed.

Lemma keeps_abort {A} why : keeps_lifecycle (C:=C) (A:=A) (abort why).
Proof. intros w. split; reflexivity. Qed.

Lemma keeps_bind {A B} (m : M C A) (k : A -> M C B) :
  keeps_lifecycle m -> (forall a, keeps_lifecycle (k a)) ->
  keeps_lifecycle (bind m k).
Proof.
  intros Hm Hk w. unfold bind. specialize (Hm w).
  destruct (m w) as [[a|why] w1]; simpl in *; [|exact Hm].
  specialize (Hk a w1). destruct Hm as [<- <-]. exact Hk.
Qed.

Lemma keeps_only_requests {A} (m : M C A) :
  (forall w, only_requests w (snd (m w))) -> keeps_lifecycle m.
Proof. intros Hm w. destruct (Hm w) as (_ & _ & ? & _ & ? & _). auto. Qed.

Lemma keeps_try_recv_stop : keeps_lifecycle (C:=C) try_recv_stop.
Proof. intros w. unfold try_recv_stop. destruct (stopWaiting w); split; reflexivity. Qed.

Ltac keeps_step :=
  first
    [ apply keeps_ret
    | apply keeps_abort
    | apply keeps_try_recv_stop
    | apply keeps_only_requests; intros;
      first [ apply getBlockFromRPC_only_requests
            | apply rawRequest_only_requests ]
    | apply keeps_bind; [| intros ]
    | match goal with
      | |- keeps_lifecycle (match ?x with _ => _ end) => destruct x
      end
    | (intros ?w; split; reflexivity) ].

Lemma BlockIngestor_body_keeps locals :
  keeps_lifecycle (C:=C) (BlockIngestor_body locals).
Proof.
  unfold BlockIngestor_body, ingest_fetched, cache_Sync, cache_Add,
    cache_Reorg, Log_Info, Log_Fatal.
  repeat keeps_step.
Qed.

Lemma BlockIngestor_loop_keeps fuel rep i locals :
  keeps_lifecycle (C:=C) (BlockIngestor_loop fuel rep i locals).
Proof.
  revert i locals. induction fuel as [|fuel IH]; intros i locals; simpl.
  - apply keeps_ret.
  - destruct ((rep =? 0) || (i <? rep)); [|apply keeps_ret].
    apply keeps_bind; [apply BlockIngestor_body_keeps|].
    intros [locals'|]; [apply IH|apply keeps_ret].
Qed.

Lemma BlockIngestor_keeps fuel rep :
  keeps_lifecycle (C:=C) (BlockIngestor fuel rep).
Proof.
  unfold BlockIngestor. apply keeps_bind.
  - intros w. split; reflexivity.
  - intros lastLog. apply BlockIngestor_loop_keeps.
Qed.

(** C4 (as the code has it): startIngestor starts a loop exactly when
    ingestorRunning is not set, and sets it; the loop never changes the
    flag, so after the loop has returned (as it does on the bootstrapping
    path) the flag is still set and startIngestor starts no new loop;
    and starting an already-running ingestor spawns no second loop. *)
Theorem startIngestor_after_loop_exit fuel rep (w w1 w2 : World C) exit :
  startIngestor w = (Done tt, w1) ->
  BlockIngestor fuel rep w1 = (Done exit, w2) ->
  (if ingestorRunning w then w1 = w
   else ingestorRunning w1 = true /\ spawned w1 = S (spawned w)) /\
  startIngestor w1 = (Done tt, w1) /\
  ingestorRunning w2 = true /\
  startIngestor w2 = (Done tt, w2).
Proof.
  intros Hstart Hloop.
  assert (Hrun1 : ingestorRunning w1 = true).
  { unfold startIngestor in Hstart.
    destruct (ingestorRunning w) eqn:Hr; simpl in Hstart;
      inversion Hstart; subst; simpl; auto. }
  assert (Hrun2 : ingestorRunning w2 = true).
  { destruct (BlockIngestor_keeps fuel rep w1) as [Hk _].
    rewrite Hloop in Hk. simpl in Hk. congruence. }
  split.
  - unfold startIngestor in Hstart.
    destruct (ingestorRunning w) eqn:Hr; simpl in Hstart;
      inversion Hstart; subst; simpl; auto.
  - unfold startIngestor. rewrite Hrun1, Hrun2. auto.
Qed.

End Lifecycle.

(** ** The range server *)

Lemma range_heights_ascending start end_ :
  start <= end_ -> range_heights start end_ = seqZ start (end_ - start + 1).
Proof.
  intros Hle. unfold range_heights.
  destruct (Z.ltb_spec end_ start); [lia|reflexivity].
Qed.

Lemma range_heights_descending start end_ :
  end_ < start -> range_heights start end_ = reverse (seqZ end_ (start - end_ + 1)).
Proof.
  intros Hlt. unfold range_heights.
  destruct (Z.ltb_spec end_ start); [reflexivity|lia].
Qed.

Lemma range_heights_elem start end_ h :
  h ∈ range_heights start end_ <-> Z.min start end_ <= h <= Z.max start end_.
Proof.
  unfold range_heights. destruct (Z.ltb_spec end_ start).
  - rewrite elem_of_reverse, elem_of_seqZ. lia.
  - rewrite elem_of_seqZ. lia.
Qed.

Lemma range_heights_length start end_ :
  length (range_heights start end_) = Z.to_nat (Z.abs (end_ - start) + 1).
Proof.
  unfold range_heights. destruct (Z.ltb_spec end_ start).
  - rewrite length_reverse, length_seqZ. lia.
  - rewrite length_seqZ. lia.
Qed.

Example range_heights_2_5 : range_heights 2 5 = [2; 3; 4; 5].
Proof. reflexivity. Qed.

Example range_heights_5_2 : range_heights 5 2 = [5; 4; 3; 2].
Proof. reflexivity. Qed.

(** Counting down from [c - lo] is counting up read backwards. *)
Lemma map_mirror_seqZ (n : nat) (lo c : Z) :
  map (fun i => c - i) (seqZ lo (Z.of_nat n))
  = reverse (seqZ (c - lo - Z.of_nat n + 1) (Z.of_nat n)).
Proof.
  revert lo. induction n as [|n IH]; intros lo; [reflexivity|].
  rewrite Nat2Z.inj_succ.
  rewrite (seqZ_cons lo) by lia. simpl.
  replace (Z.pred (Z.succ (Z.of_nat n))) with (Z.of_nat n) by lia.
  rewrite IH.
  replace (Z.succ (Z.of_nat n)) with (Z.of_nat n + 1) by lia.
  rewrite (seqZ_app _ (Z.of_nat n) 1) by lia.
  rewrite reverse_app. simpl.
  f_equal; [lia|]. do 2 f_equal. lia.
Qed.

Section RangeServer.

Context {C : Type} {BC : BlockCacheOps C} {E : Externals}.

(** The loop, from index [i] with [n] heights to go, is the stream over
    the heights its indices stand for. *)
Lemma GetBlockRange_loop_stream start end_ low high thr :
  GoInt.in_range low -> GoInt.in_range high -> high < GoInt.max_int ->
  forall (n fuel : nat) (i : Z) (w : World C),
    (n < fuel)%nat -> low <= i -> i + Z.of_nat n = high + 1 ->
    GetBlockRange_loop fuel start end_ low high thr i w
    = stream_heights
        (map (fun i => if end_ <? start then high - (i - low) else i)
             (seqZ i (Z.of_nat n)))
        thr w.
Proof.
  intros Hlow Hhigh Hmax.
  induction n as [|n IH]; intros fuel i w Hfuel Hi Hn;
    (destruct fuel as [|fuel]; [lia|]); simpl.
  - destruct (Z.leb_spec i high); [lia|]. reflexivity.
  - destruct (Z.leb_spec i high); [|lia].
    rewrite Nat2Z.inj_succ. rewrite (seqZ_cons i) by lia.
    replace (Z.pred (Z.succ (Z.of_nat n))) with (Z.of_nat n) by lia.
    simpl.
    assert (Hj : (if end_ <? start
                  then GoInt.sub high (GoInt.sub i low) else i)
                 = (if end_ <? start then high - (i - low) else i)).
    { destruct (end_ <? start); [|reflexivity].
      apply GoIntFacts.sub_sub_in_range.
      unfold GoInt.in_range in *. lia. }
    rewrite Hj. unfold bind.
    destruct (GetBlock _ w) as [[[block err]|why] w1]; [|reflexivity].
    destruct err as [err|]; [reflexivity|].
    destruct (FilterSpammyBlock_value block thr) as [filtered|why];
      [|reflexivity].
    cbn [send_block].
    rewrite GoIntFacts.add_1_small
      by (unfold GoInt.in_range, GoInt.max_int in *; lia).
    apply IH; lia.
Qed.

Lemma GetBlockRange_stream fuel start end_ thr (w : World C) :
  GoInt.in_range start -> GoInt.in_range end_ ->
  Z.max start end_ < GoInt.max_int ->
  (Z.to_nat (Z.abs (end_ - start)) + 2 <= fuel)%nat ->
  GetBlockRange fuel start end_ thr w
  = stream_heights (range_heights start end_) thr w.
Proof.
  intros Hs He Hmax Hfuel. unfold GetBlockRange, range_heights.
  destruct (Z.ltb_spec end_ start) as [Hlt|Hle].
  - rewrite (GetBlockRange_loop_stream start end_ end_ start thr He Hs
               ltac:(lia) (Z.to_nat (start - end_ + 1))); [|lia|lia|lia].
    destruct (Z.ltb_spec end_ start); [|lia].
    rewrite <- (map_ext (fun i => (start + end_) - i)) by (intros; lia).
    rewrite map_mirror_seqZ. do 3 f_equal; lia.
  - rewrite (GetBlockRange_loop_stream start end_ start end_ thr Hs He
               ltac:(lia) (Z.to_nat (end_ - start + 1))); [|lia|lia|lia].
    destruct (Z.ltb_spec end_ start); [lia|].
    rewrite map_id. do 2 f_equal. lia.
Qed.

(** What a finished stream has put on the two channels. *)
Lemma stream_heights_channels thr hs (w0 w w' : World C) exit :
  cache w = cache w0 ->
  stream_heights hs thr w = (Done exit, w') ->
  exit = Returned /\
  exists bs e,
    blockOut w' = blockOut w ++ bs /\
    errOut w' = errOut w ++ [e] /\
    Forall2 (served thr w0) (take (length bs) hs) bs /\
    match e with
    | None => length bs = length hs
    | Some err => exists h, hs !! length bs = Some h /\ failed_at w0 h err
    end.
Proof.
  revert w. induction hs as [|h hs IH]; intros w Hc Hrun; simpl in Hrun.
  - inversion Hrun; subst. split; [reflexivity|].
    exists [], None. simpl. rewrite app_nil_r. repeat split. constructor.
  - unfold bind at 1 in Hrun.
    pose proof (GetBlock_only_requests h w) as F.
    destruct (GetBlock h w) as [[[block err]|why] w1] eqn:Hget;
      [|discriminate].
    destruct F as (Hc1 & _ & _ & _ & _ & Hb1 & He1 & _). simpl in *.
    destruct err as [err|].
    + inversion Hrun; subst. simpl. split; [reflexivity|].
      exists [], (Some err). simpl. rewrite app_nil_r, Hb1, He1.
      repeat split; [constructor|].
      exists h. split; [reflexivity|]. exists w, w1, block. auto.
    + destruct (FilterSpammyBlock_value block thr) as [filtered|why] eqn:Hf;
        [|discriminate].
      unfold bind at 1 in Hrun. simpl in Hrun.
      apply IH in Hrun; [|simpl; congruence].
      destruct Hrun as (-> & bs & e & Hbs & Hes & Hserved & Hend).
      simpl in *. split; [reflexivity|].
      exists (filtered :: bs), e. rewrite Hbs, Hes, Hb1, He1, <- app_assoc.
      simpl. repeat split.
      * constructor; [|exact Hserved]. exists w, w1, block. auto.
      * destruct e; [exact Hend|]. by rewrite Hend.
Qed.

(** C6: for bounds that are Go ints below the largest one, and given
    the iterations the range needs, GetBlockRange is the stream over the
    heights between the bounds, ascending when start <= end and
    descending otherwise; when it returns it has emitted the filtered
    GetBlock result of a run of those heights from the first on, in
    order, and has delivered exactly one message on the error channel:
    nil when every height was emitted, otherwise the error GetBlock
    returned for the first height not emitted. *)
Theorem GetBlockRange_emits_range fuel start end_ thr (w : World C) :
  GoInt.in_range start -> GoInt.in_range end_ ->
  Z.max start end_ < GoInt.max_int ->
  (Z.to_nat (Z.abs (end_ - start)) + 2 <= fuel)%nat ->
  let hs := range_heights start end_ in
  (forall h, h ∈ hs <-> Z.min start end_ <= h <= Z.max start end_) /\
  hs = (if end_ <? start then reverse (seqZ end_ (start - end_ + 1))
        else seqZ start (end_ - start + 1)) /\
  GetBlockRange fuel start end_ thr w = stream_heights hs thr w /\
  forall exit w',
    GetBlockRange fuel start end_ thr w = (Done exit, w') ->
    exit = Returned /\
    exists bs e,
      blockOut w' = blockOut w ++ bs /\
      errOut w' = errOut w ++ [e] /\
      Forall2 (served thr w) (take (length bs) hs) bs /\
      match e with
      | None => length bs = length hs
      | Some err => exists h, hs !! length bs = Some h /\ failed_at w h err
      end.
Proof.
  intros Hs He Hmax Hfuel hs.
  split; [intros h; apply range_heights_elem|].
  split; [reflexivity|].
  split; [by apply GetBlockRange_stream|].
  intros exit w' Hrun.
  rewrite GetBlockRange_stream in Hrun by assumption.
  by apply (stream_heights_channels thr hs w w w' exit).
Qed.

End RangeServer.

(** ** The spam filter *)

Lemma filter_tx_filtered t tx : tx_filtered t tx (filter_tx t tx).
Proof.
  unfold tx_filtered, filter_tx, is_spammy.
  destruct (Z.leb_spec (Z.of_nat (length (Outputs tx))
                        + Z.of_nat (length (Actions tx))) t) as [Hle|Hgt].
  - destruct (Z.ltb_spec t (Z.of_nat (length (Outputs tx))
                            + Z.of_nat (length (Actions tx)))); [lia|reflexivity].
  - destruct (Z.ltb_spec t (Z.of_nat (length (Outputs tx))
                            + Z.of_nat (length (Actions tx)))); [|lia].
    simpl. repeat split.
    + apply Forall2_fmap_r, Forall_Forall2_diag, Forall_forall.
      intros o _. repeat split.
    + apply Forall2_fmap_r, Forall_Forall2_diag, Forall_forall.
      intros a _. repeat split.
Qed.

Lemma filter_block_filtered t b : block_filtered t b (filter_block t b).
Proof.
  unfold block_filtered, filter_block. simpl. repeat split.
  apply Forall2_fmap_r, Forall_Forall2_diag, Forall_forall.
  intros tx _. apply filter_tx_filtered.
Qed.

Module PointersFacts.
Import Pointers.

Section Maps.
Context {A : Type}.
Implicit Types (m : gmap loc A) (ps qs : list loc) (vs : list A).

Lemma read_all_Forall2 m ps vs :
  read_all m ps = Some vs <-> Forall2 (fun p v => m !! p = Some v) ps vs.
Proof. unfold read_all. apply mapM_Some. Qed.

Lemma read_all_weaken m m' ps vs :
  m ⊆ m' -> read_all m ps = Some vs -> read_all m' ps = Some vs.
Proof.
  rewrite !read_all_Forall2. intros Hsub HF.
  eapply Forall2_impl; [exact HF|]. intros p v Hp. simpl in *.
  exact (lookup_weaken _ _ _ _ Hp Hsub).
Qed.

Lemma read_all_agree m m' ps :
  (forall l, l ∈ ps -> m' !! l = m !! l) -> read_all m' ps = read_all m ps.
Proof.
  unfold read_all. induction ps as [|p ps IH]; intros Hag; [reflexivity|].
  simpl. rewrite Hag by apply list_elem_of_here.
  rewrite IH; [reflexivity|].
  intros l Hl. apply Hag. by apply list_elem_of_further.
Qed.

Lemma read_all_is_Some m ps vs l :
  read_all m ps = Some vs -> l ∈ ps -> is_Some (m !! l).
Proof.
  rewrite read_all_Forall2. intros HF Hl.
  apply list_elem_of_lookup in Hl as [i Hi].
  destruct (Forall2_lookup_l _ _ _ _ _ HF Hi) as (v & _ & Hv). eauto.
Qed.

Lemma read_all_length m ps vs :
  read_all m ps = Some vs -> length ps = length vs.
Proof. rewrite read_all_Forall2. apply Forall2_length. Qed.

(** Cloning a slice of pointers: new addresses, all different, the
    same values behind them, and nothing old disturbed. *)
Lemma clone_all_spec ps : forall m vs,
  read_all m ps = Some vs ->
  exists m' qs,
    clone_all m ps = Some (m', qs) /\ m ⊆ m' /\
    read_all m' qs = Some vs /\
    Forall (fun q => m !! q = None) qs /\ NoDup qs.
Proof.
  induction ps as [|p ps IH]; intros m vs Hread.
  - exists m, []. apply read_all_Forall2 in Hread. inversion Hread; subst.
    repeat split; auto using NoDup_nil_2.
  - apply read_all_Forall2 in Hread.
    inversion Hread as [|? v ? vs' Hp Hps]; subst.
    apply read_all_Forall2 in Hps.
    set (q := fresh (dom m)).
    assert (Hq : m !! q = None)
      by (apply not_elem_of_dom, is_fresh).
    assert (Hsub : m ⊆ <[q := v]> m) by (by apply insert_subseteq).
    destruct (IH (<[q := v]> m) vs' (read_all_weaken _ _ _ _ Hsub Hps))
      as (m' & qs & Hclone & Hsub' & Hread' & Hfresh & Hnd).
    exists m', (q :: qs). split.
    { simpl. rewrite Hp. simpl. fold q. by rewrite Hclone. }
    repeat split.
    + by etrans.
    + apply read_all_Forall2. constructor.
      * eapply lookup_weaken; [|exact Hsub']. apply lookup_insert_eq.
      * by apply read_all_Forall2.
    + constructor; [exact Hq|].
      eapply Forall_impl; [exact Hfresh|]. intros l Hl. simpl in Hl.
      eapply lookup_weaken_None; [exact Hl|exact Hsub].
    + constructor; [|exact Hnd].
      intros Hin. rewrite Forall_forall in Hfresh.
      specialize (Hfresh q Hin). rewrite lookup_insert_eq in Hfresh. done.
Qed.

(** Writing through each pointer of a slice. *)
Lemma wipe_all_notin (f : A -> A) ps : forall m l,
  l ∉ ps -> wipe_all f m ps !! l = m !! l.
Proof.
  induction ps as [|p ps IH]; intros m l Hl; [reflexivity|].
  apply not_elem_of_cons in Hl as [Hne Hl].
  change (wipe_all f m (p :: ps)) with (wipe_all f (alter f p m) ps).
  rewrite IH by exact Hl. by apply lookup_alter_ne.
Qed.

Lemma wipe_all_in (f : A -> A) ps :
  (forall x, f (f x) = f x) ->
  forall m l, l ∈ ps -> wipe_all f m ps !! l = f <$> m !! l.
Proof.
  intros Hidem. induction ps as [|p ps IH]; intros m l Hl.
  - by apply elem_of_nil in Hl.
  - change (wipe_all f m (p :: ps)) with (wipe_all f (alter f p m) ps).
    destruct (decide (l ∈ ps)) as [Hin|Hout].
    + rewrite IH by exact Hin.
      destruct (decide (p = l)) as [->|Hne].
      * rewrite lookup_alter_eq. destruct (m !! l); simpl; [|done].
        by rewrite Hidem.
      * by rewrite lookup_alter_ne.
    + rewrite wipe_all_notin by exact Hout.
      apply elem_of_cons in Hl as [->|Hl]; [|done].
      apply lookup_alter_eq.
Qed.

Lemma read_all_mapped (f : A -> A) m m' ps vs :
  (forall l, l ∈ ps -> m' !! l = f <$> m !! l) ->
  read_all m ps = Some vs -> read_all m' ps = Some (map f vs).
Proof.
  rewrite !read_all_Forall2. intros Hmap HF.
  induction HF as [|p v ps vs Hp HF IH]; simpl; constructor.
  - rewrite Hmap by apply list_elem_of_here. by rewrite Hp.
  - apply IH. intros l Hl. apply Hmap. by apply list_elem_of_further.
Qed.

End Maps.

Lemma preserved_refl h : preserved h h.
Proof. unfold preserved. repeat split; reflexivity. Qed.

Lemma preserved_trans h1 h2 h3 :
  preserved h1 h2 -> preserved h2 h3 -> preserved h1 h3.
Proof.
  unfold preserved. intros (?&?&?&?&?) (?&?&?&?&?).
  repeat split; etrans; eauto.
Qed.

Lemma read_tx_inv h p tx :
  read_tx h p = Some tx ->
  exists t,
    txs h !! p = Some t /\
    read_all (spends h) (o_Spends t) = Some (Spends tx) /\
    read_all (outputs h) (o_Outputs t) = Some (Outputs tx) /\
    read_all (actions h) (o_Actions t) = Some (Actions tx) /\
    Index tx = o_Index t /\ TxHash tx = o_TxHash t /\ Fee tx = o_Fee t.
Proof.
  unfold read_tx. intros Hread.
  destruct (txs h !! p) as [t|]; simpl in Hread; [|done].
  destruct (read_all (spends h) _) as [sp|] eqn:Hsp; simpl in Hread; [|done].
  destruct (read_all (outputs h) _) as [ou|] eqn:Hou; simpl in Hread; [|done].
  destruct (read_all (actions h) _) as [ac|] eqn:Hac; simpl in Hread; [|done].
  inversion Hread; subst. exists t. simpl. repeat split; assumption.
Qed.

Lemma read_tx_intro h p t sp ou ac :
  txs h !! p = Some t ->
  read_all (spends h) (o_Spends t) = Some sp ->
  read_all (outputs h) (o_Outputs t) = Some ou ->
  read_all (actions h) (o_Actions t) = Some ac ->
  read_tx h p = Some (mkTx (o_Index t) (o_TxHash t) (o_Fee t) sp ou ac).
Proof.
  intros Ht Hsp Hou Hac. unfold read_tx.
  rewrite Ht. simpl. rewrite Hsp. simpl. rewrite Hou. simpl.
  rewrite Hac. reflexivity.
Qed.

Lemma read_tx_weaken h h' p tx :
  preserved h h' -> read_tx h p = Some tx -> read_tx h' p = Some tx.
Proof.
  intros (Hsp & Hou & Hac & Htx & _) Hread.
  destruct (read_tx_inv _ _ _ Hread) as (t & Ht & Rsp & Rou & Rac & Hi & Hh & Hf).
  rewrite (read_tx_intro h' p t (Spends tx) (Outputs tx) (Actions tx)).
  - destruct tx; simpl in *; congruence.
  - exact (lookup_weaken _ _ _ _ Ht Htx).
  - by eapply read_all_weaken.
  - by eapply read_all_weaken.
  - by eapply read_all_weaken.
Qed.

Lemma read_txs_weaken h h' ps txsv :
  preserved h h' ->
  mapM (read_tx h) ps = Some txsv -> mapM (read_tx h') ps = Some txsv.
Proof.
  rewrite !mapM_Some. intros Hpres HF.
  eapply Forall2_impl; [exact HF|].
  intros p tx Hp. simpl in *. by eapply read_tx_weaken.
Qed.

Lemma read_block_weaken h h' p b :
  preserved h h' -> read_block h p = Some b -> read_block h' p = Some b.
Proof.
  intros Hpres Hread. unfold read_block in *.
  destruct (blocks h !! p) as [bo|] eqn:Hbo; simpl in Hread; [|done].
  destruct (mapM (read_tx h) (o_Vtx bo)) as [vtx|] eqn:Hv;
    simpl in Hread; [|done].
  destruct Hpres as (? & ? & ? & ? & Hbl).
  rewrite (lookup_weaken _ _ _ _ Hbo Hbl). simpl.
  rewrite (read_txs_weaken h h' _ _ ltac:(repeat split; assumption) Hv).
  exact Hread.
Qed.

(** A transaction reads the same in two heaps that agree on it, on its
    spends and on what its output and action pointers point to. *)
Lemma read_tx_agree h h' q :
  txs h' = txs h -> spends h' = spends h ->
  (forall l, l ∈ out_fp (txs h) q -> outputs h' !! l = outputs h !! l) ->
  (forall l, l ∈ act_fp (txs h) q -> actions h' !! l = actions h !! l) ->
  read_tx h' q = read_tx h q.
Proof.
  unfold read_tx, out_fp, act_fp. intros -> -> Hou Hac.
  destruct (txs h !! q) as [t|]; simpl; [|reflexivity].
  rewrite (read_all_agree (outputs h) (outputs h') _ Hou).
  rewrite (read_all_agree (actions h) (actions h') _ Hac).
  reflexivity.
Qed.

(** Cloning a transaction. *)
Lemma clone_tx_spec h p tx :
  read_tx h p = Some tx ->
  exists h1 q,
    clone_tx h p = Some (h1, q) /\ preserved h h1 /\
    blocks h1 = blocks h /\
    read_tx h1 q = Some tx /\
    NoDup (out_fp (txs h1) q) /\
    Forall (fun l => outputs h !! l = None) (out_fp (txs h1) q) /\
    NoDup (act_fp (txs h1) q) /\
    Forall (fun l => actions h !! l = None) (act_fp (txs h1) q).
Proof.
  intros Hread.
  destruct (read_tx_inv _ _ _ Hread) as (t & Ht & Rsp & Rou & Rac & Hi & Hh & Hf).
  destruct (clone_all_spec _ _ _ Rsp) as (sp & sps & Csp & Ssp & Rsp' & _ & _).
  destruct (clone_all_spec _ _ _ Rou) as (ou & ous & Cou & Sou & Rou' & Fou & Nou).
  destruct (clone_all_spec _ _ _ Rac) as (ac & acs & Cac & Sac & Rac' & Fac & Nac).
  set (q := fresh (dom (txs h))).
  assert (Hq : txs h !! q = None) by (apply not_elem_of_dom, is_fresh).
  eexists _, q. split.
  { unfold clone_tx. rewrite Ht. simpl. rewrite Csp. simpl.
    rewrite Cou. simpl. rewrite Cac. simpl. fold q. reflexivity. }
  unfold out_fp, act_fp. simpl. rewrite lookup_insert_eq. simpl.
  repeat split; try assumption.
  - by apply insert_subseteq.
  - reflexivity.
  - rewrite (read_tx_intro _ q
               (mkTxObj (o_Index t) (o_TxHash t) (o_Fee t) sps ous acs)
               (Spends tx) (Outputs tx) (Actions tx));
      [|apply lookup_insert_eq|exact Rsp'|exact Rou'|exact Rac'].
    destruct tx; simpl in *; congruence.
Qed.

(** Cloning the transactions of a block, one after the other: each
    clone reads as its original, and no output or action pointer of the
    clones is an old one or occurs twice. *)
Lemma clone_txs_spec ps : forall h txsv,
  mapM (read_tx h) ps = Some txsv ->
  exists h' qs,
    clone_txs h ps = Some (h', qs) /\ preserved h h' /\
    blocks h' = blocks h /\
    mapM (read_tx h') qs = Some txsv /\
    NoDup (out_fps (txs h') qs) /\
    Forall (fun l => outputs h !! l = None) (out_fps (txs h') qs) /\
    NoDup (act_fps (txs h') qs) /\
    Forall (fun l => actions h !! l = None) (act_fps (txs h') qs).
Proof.
  induction ps as [|p ps IH]; intros h txsv Hread.
  - apply mapM_Some in Hread. inversion Hread; subst.
    exists h, []. unfold out_fps, act_fps. simpl.
    repeat split; auto using NoDup_nil_2, preserved_refl.
  - apply mapM_Some in Hread.
    inversion Hread as [|? tx ? txsv' Hp Hps]; subst.
    apply mapM_Some in Hps.
    destruct (clone_tx_spec _ _ _ Hp)
      as (h1 & q & C1 & P1 & B1 & R1 & NO1 & FO1 & NA1 & FA1).
    destruct (IH h1 txsv' (read_txs_weaken _ _ _ _ P1 Hps))
      as (h' & qs & C2 & P2 & B2 & R2 & NO2 & FO2 & NA2 & FA2).
    exists h', (q :: qs). split.
    { simpl. rewrite C1. simpl. by rewrite C2. }
    destruct (read_tx_inv _ _ _ R1) as (t1 & Ht1 & _ & Rou1 & Rac1 & _).
    assert (Ht' : txs h' !! q = Some t1).
    { destruct P2 as (_ & _ & _ & Htx & _).
      exact (lookup_weaken _ _ _ _ Ht1 Htx). }
    assert (Eo : out_fps (txs h') (q :: qs)
                 = out_fp (txs h1) q ++ out_fps (txs h') qs).
    { unfold out_fps, out_fp. simpl. by rewrite Ht', Ht1. }
    assert (Ea : act_fps (txs h') (q :: qs)
                 = act_fp (txs h1) q ++ act_fps (txs h') qs).
    { unfold act_fps, act_fp. simpl. by rewrite Ht', Ht1. }
    rewrite Eo, Ea.
    pose proof P1 as (Ssp1 & Sou1 & Sac1 & Stx1 & Sbl1).
    split_and!.
    + exact (preserved_trans h h1 h' P1 P2).
    + congruence.
    + apply mapM_Some. constructor; [|by apply mapM_Some].
      by eapply read_tx_weaken.
    + apply NoDup_app. repeat split; [exact NO1| |exact NO2].
      intros l Hl Hl'.
      rewrite Forall_forall in FO2. specialize (FO2 l Hl').
      unfold out_fp in Hl. rewrite Ht1 in Hl.
      destruct (read_all_is_Some _ _ _ l Rou1 Hl) as [v Hv]. congruence.
    + apply Forall_app. split; [exact FO1|].
      eapply Forall_impl; [exact FO2|]. intros l Hl. simpl in Hl.
      eapply lookup_weaken_None; [exact Hl|exact Sou1].
    + apply NoDup_app. repeat split; [exact NA1| |exact NA2].
      intros l Hl Hl'.
      rewrite Forall_forall in FA2. specialize (FA2 l Hl').
      unfold act_fp in Hl. rewrite Ht1 in Hl.
      destruct (read_all_is_Some _ _ _ l Rac1 Hl) as [v Hv]. congruence.
    + apply Forall_app. split; [exact FA1|].
      eapply Forall_impl; [exact FA2|]. intros l Hl. simpl in Hl.
      eapply lookup_weaken_None; [exact Hl|exact Sac1].
Qed.

Lemma read_block_inv h p b :
  read_block h p = Some b ->
  exists bo,
    blocks h !! p = Some bo /\
    mapM (read_tx h) (o_Vtx bo) = Some (Vtx b) /\
    b = mkBlock (o_ProtoVersion bo) (o_Height bo) (o_Hash bo)
                (o_PrevHash bo) (o_Time bo) (o_Header bo) (Vtx b).
Proof.
  unfold read_block. intros Hread.
  destruct (blocks h !! p) as [bo|]; simpl in Hread; [|done].
  destruct (mapM (read_tx h) (o_Vtx bo)) as [vtx|] eqn:Hv;
    simpl in Hread; [|done].
  inversion Hread; subst. exists bo. simpl. auto.
Qed.

(** [proto.Clone] of a block. *)
Lemma proto_Clone_spec h p b :
  read_block h p = Some b ->
  exists h1 q vtx,
    proto_Clone h p = Some (h1, q) /\ preserved h h1 /\
    blocks h !! q = None /\
    blocks h1 !! q
      = Some (mkBlockObj (ProtoVersion b) (Height b) (Hash b) (PrevHash b)
                         (Time b) (Header b) vtx) /\
    mapM (read_tx h1) vtx = Some (Vtx b) /\
    NoDup (out_fps (txs h1) vtx) /\
    Forall (fun l => outputs h !! l = None) (out_fps (txs h1) vtx) /\
    NoDup (act_fps (txs h1) vtx) /\
    Forall (fun l => actions h !! l = None) (act_fps (txs h1) vtx).
Proof.
  intros Hread.
  destruct (read_block_inv _ _ _ Hread) as (bo & Hbo & Hv & Hb).
  destruct (clone_txs_spec _ _ _ Hv)
    as (h' & qs & Cl & P & B & R & NO & FO & NA & FA).
  set (q := fresh (dom (blocks h'))).
  assert (Hq : blocks h' !! q = None) by (apply not_elem_of_dom, is_fresh).
  eexists _, q, qs. split.
  { unfold proto_Clone. rewrite Hbo. simpl. rewrite Cl. simpl.
    fold q. reflexivity. }
  set (h1 := mkHeap _ _ _ _ _).
  assert (P1 : preserved h' h1).
  { unfold preserved, h1. simpl. split_and!; try reflexivity.
    by apply insert_subseteq. }
  split_and!; try assumption.
  - exact (preserved_trans _ _ _ P P1).
  - by rewrite <- B.
  - unfold h1. simpl. rewrite lookup_insert_eq. rewrite Hb. reflexivity.
Qed.

(** The loop over the transactions of the clone. *)
Lemma filter_at_fields thr h q :
  txs (filter_at thr h q) = txs h /\
  spends (filter_at thr h q) = spends h /\
  blocks (filter_at thr h q) = blocks h.
Proof.
  unfold filter_at. destruct (txs h !! q) as [t|]; [|done].
  destruct (_ <? _); done.
Qed.

Lemma filter_loop_fields thr qs : forall h,
  txs (foldl (filter_at thr) h qs) = txs h /\
  spends (foldl (filter_at thr) h qs) = spends h /\
  blocks (foldl (filter_at thr) h qs) = blocks h.
Proof.
  induction qs as [|q qs IH]; intros h; simpl; [done|].
  destruct (IH (filter_at thr h q)) as (-> & -> & ->).
  apply filter_at_fields.
Qed.

Lemma filter_at_frame thr h q :
  (forall l, l ∉ out_fp (txs h) q ->
             outputs (filter_at thr h q) !! l = outputs h !! l) /\
  (forall l, l ∉ act_fp (txs h) q ->
             actions (filter_at thr h q) !! l = actions h !! l).
Proof.
  unfold filter_at, out_fp, act_fp.
  destruct (txs h !! q) as [t|]; [|done].
  destruct (_ <? _); [|done]. simpl.
  split; intros l Hl; by apply wipe_all_notin.
Qed.

Lemma filter_loop_frame thr qs : forall h,
  (forall l, l ∉ out_fps (txs h) qs ->
             outputs (foldl (filter_at thr) h qs) !! l = outputs h !! l) /\
  (forall l, l ∉ act_fps (txs h) qs ->
             actions (foldl (filter_at thr) h qs) !! l = actions h !! l).
Proof.
  induction qs as [|q qs IH]; intros h; simpl; [done|].
  destruct (IH (filter_at thr h q)) as [IHo IHa].
  destruct (filter_at_fields thr h q) as (Ht & _ & _).
  destruct (filter_at_frame thr h q) as [Fo Fa].
  rewrite Ht in IHo, IHa.
  unfold out_fps, act_fps in *. simpl.
  split; intros l Hl; apply not_elem_of_app in Hl as [Hl1 Hl2].
  - rewrite IHo by exact Hl2. by apply Fo.
  - rewrite IHa by exact Hl2. by apply Fa.
Qed.

Lemma out_fp_in_fps T q qs l :
  q ∈ qs -> l ∈ out_fp T q -> l ∈ out_fps T qs.
Proof.
  unfold out_fps. induction qs as [|q' qs IH]; intros Hq Hl.
  - by apply elem_of_nil in Hq.
  - simpl. apply elem_of_app.
    apply elem_of_cons in Hq as [->|Hq]; [by left|right; by apply IH].
Qed.

Lemma act_fp_in_fps T q qs l :
  q ∈ qs -> l ∈ act_fp T q -> l ∈ act_fps T qs.
Proof.
  unfold act_fps. induction qs as [|q' qs IH]; intros Hq Hl.
  - by apply elem_of_nil in Hq.
  - simpl. apply elem_of_app.
    apply elem_of_cons in Hq as [->|Hq]; [by left|right; by apply IH].
Qed.

Lemma wipe_output_idem o : wipe_output (wipe_output o) = wipe_output o.
Proof. reflexivity. Qed.

Lemma wipe_action_idem a : wipe_action (wipe_action a) = wipe_action a.
Proof. reflexivity. Qed.

(** One pass of the loop body, seen from the transaction it visits. *)
Lemma filter_at_self thr h q tx :
  read_tx h q = Some tx ->
  read_tx (filter_at thr h q) q = Some (filter_tx thr tx).
Proof.
  intros Hread.
  destruct (read_tx_inv _ _ _ Hread) as (t & Ht & Rsp & Rou & Rac & Hi & Hh & Hf).
  unfold filter_at, filter_tx, is_spammy. rewrite Ht.
  rewrite <- (read_all_length _ _ _ Rou), <- (read_all_length _ _ _ Rac).
  destruct (_ <? _); [|exact Hread].
  rewrite (read_tx_intro _ q t (Spends tx)
             (map wipe_output (Outputs tx)) (map wipe_action (Actions tx)));
    simpl; [rewrite Hi, Hh, Hf; reflexivity|exact Ht|exact Rsp| |].
  - eapply read_all_mapped; [|exact Rou].
    intros l Hl. by apply wipe_all_in.
  - eapply read_all_mapped; [|exact Rac].
    intros l Hl. by apply wipe_all_in.
Qed.

Lemma filter_loop_read thr qs : forall h txsv,
  mapM (read_tx h) qs = Some txsv ->
  NoDup (out_fps (txs h) qs) -> NoDup (act_fps (txs h) qs) ->
  mapM (read_tx (foldl (filter_at thr) h qs)) qs
  = Some (map (filter_tx thr) txsv).
Proof.
  induction qs as [|q qs IH]; intros h txsv Hread NO NA.
  - apply mapM_Some in Hread. inversion Hread; subst. reflexivity.
  - apply mapM_Some in Hread.
    inversion Hread as [|? tx ? txsv' Hq Hqs]; subst.
    unfold out_fps, act_fps in NO, NA. simpl in NO, NA.
    apply NoDup_app in NO as (_ & Do & NO).
    apply NoDup_app in NA as (_ & Da & NA).
    destruct (filter_at_fields thr h q) as (Ht & Hs & _).
    destruct (filter_at_frame thr h q) as [Fo Fa].
    destruct (filter_loop_fields thr qs (filter_at thr h q)) as (Lt & Ls & _).
    destruct (filter_loop_frame thr qs (filter_at thr h q)) as [Lo La].
    rewrite Ht in Lo, La.
    change (foldl (filter_at thr) h (q :: qs))
      with (foldl (filter_at thr) (filter_at thr h q) qs).
    apply mapM_Some. simpl. constructor.
    + rewrite <- (filter_at_self thr h q tx Hq).
      apply read_tx_agree; [exact Lt|exact Ls|rewrite Ht..].
      * intros l Hl. apply Lo. by apply Do.
      * intros l Hl. apply La. by apply Da.
    + apply mapM_Some, IH; [|by rewrite Ht|by rewrite Ht].
      apply mapM_Some.
      apply Forall2_same_length_lookup. split.
      { by eapply Forall2_length. }
      intros i q' tx' Hq' Htx'.
      assert (Hin : q' ∈ qs) by (apply list_elem_of_lookup; eauto).
      rewrite <- (Forall2_lookup_lr _ _ _ _ _ _ Hqs Hq' Htx').
      apply read_tx_agree; [exact Ht|exact Hs|..].
      * intros l Hl. apply Fo. intros Hl'.
        by apply (Do l Hl'), (out_fp_in_fps _ q').
      * intros l Hl. apply Fa. intros Hl'.
        by apply (Da l Hl'), (act_fp_in_fps _ q').
Qed.

(** C7: with a zero threshold FilterSpammyBlock returns the pointer it
    was given and writes nothing. With a threshold above zero it returns
    a new pointer; behind it is the block with every transaction of at
    most t outputs plus actions as it was, and every transaction above t
    with ciphertext and ephemeral key of all outputs and ciphertext,
    ephemeral key and nullifier of all actions cleared and everything
    else as it was; every message that was in memory before, the input
    block among them, is unchanged. *)
Theorem FilterSpammyBlock_spec h block b t :
  read_block h block = Some b ->
  FilterSpammyBlock h block 0 = Some (h, block) /\
  (0 < t ->
   exists h' newBlock b',
     FilterSpammyBlock h block t = Some (h', newBlock) /\
     blocks h !! newBlock = None /\
     preserved h h' /\
     read_block h' block = Some b /\
     read_block h' newBlock = Some b' /\
     block_filtered t b b' /\
     FilterSpammyBlock_value (Some b) t = Done (Some b')).
Proof.
  intros Hread. split; [reflexivity|]. intros Ht.
  destruct (proto_Clone_spec _ _ _ Hread)
    as (h1 & q & vtx & Cl & P & Hq & Hbo & Rv & NO & FO & NA & FA).
  set (h' := foldl (filter_at t) h1 vtx).
  destruct (filter_loop_fields t vtx h1) as (Lt & Ls & Lb).
  destruct (filter_loop_frame t vtx h1) as [Lo La].
  assert (P' : preserved h h').
  { destruct P as (Ssp & Sou & Sac & Stx & Sbl). unfold preserved, h'.
    rewrite Lt, Ls, Lb. split_and!; try assumption.
    - apply map_subseteq_spec. intros l o Hl. rewrite Lo.
      + exact (lookup_weaken _ _ _ _ Hl Sou).
      + intros Hin. rewrite Forall_forall in FO.
        specialize (FO l Hin). congruence.
    - apply map_subseteq_spec. intros l a Hl. rewrite La.
      + exact (lookup_weaken _ _ _ _ Hl Sac).
      + intros Hin. rewrite Forall_forall in FA.
        specialize (FA l Hin). congruence. }
  exists h', q, (filter_block t b). split_and!.
  - unfold FilterSpammyBlock.
    destruct (Z.eqb_spec t 0); [lia|].
    rewrite Cl. simpl. rewrite Hbo. reflexivity.
  - exact Hq.
  - exact P'.
  - by apply (read_block_weaken h h').
  - unfold read_block, h'. rewrite Lb, Hbo. simpl.
    rewrite (filter_loop_read t vtx h1 (Vtx b) Rv NO NA). reflexivity.
  - apply filter_block_filtered.
  - unfold FilterSpammyBlock_value.
    destruct (Z.eqb_spec t 0); [lia|reflexivity].
Qed.

End PointersFacts.

(** ** The statements at work on the test doubles *)

Module Scenarios.
Import Mock.

Lemma behind_reaches_fetch : reaches_fetch (E:=node_behind) with_four.
Proof.
  split; [reflexivity|].
  exists (quoted "ff"), "ff", [xff].
  split_and!; [reflexivity..|]. vm_compute. discriminate.
Defined.

(** With blocks 1 to 4 cached and the node answering "not yet" for
    height 5, the iteration calls Reorg(4) and goes on without waiting. *)
Lemma ingestor_fetch_not_available_witness :
  reaches_fetch (E:=node_behind) with_four /\
  exists exit w',
    BlockIngestor_body (E:=node_behind) locals0 with_four = (Done exit, w') /\
    exit = Continue locals0 /\
    events_after
      (snd (getBlockFromRPC (E:=node_behind) 5
              (world_at_fetch (E:=node_behind) with_four))) w'
      = [EvLogInfo "REORG: dropping block "; EvReorg 4].
Proof.
  split; [exact behind_reaches_fetch|].
  pose (w2 := snd (getBlockFromRPC (E:=node_behind) 5
                     (world_at_fetch (E:=node_behind) with_four))).
  assert (Hfetch : getBlockFromRPC (E:=node_behind) 5
                     (world_at_fetch (E:=node_behind) with_four)
                   = (Done (None, None), w2)) by (vm_compute; reflexivity).
  destruct (ingestor_fetch_not_available (E:=node_behind) locals0 with_four w2
              behind_reaches_fetch Hfetch)
    as (exit & w' & Hrun & Hexit & Hev & _).
  exists exit, w'. split_and!; [exact Hrun|exact Hexit|exact Hev].
Defined.

(** The same iteration refutes the quiet retry: it calls Reorg. *)
Lemma nil_fetch_is_not_quiet :
  ~ retries_quietly (E:=node_behind) locals0 with_four.
Proof.
  intros Hc.
  pose (w2 := snd (getBlockFromRPC (E:=node_behind) 5
                     (world_at_fetch (E:=node_behind) with_four))).
  assert (Hfetch : getBlockFromRPC (E:=node_behind) 5
                     (world_at_fetch (E:=node_behind) with_four)
                   = (Done (None, None), w2)) by (vm_compute; reflexivity).
  destruct (Hc w2 behind_reaches_fetch Hfetch)
    as (locals' & w' & Hrun & Hquiet & _).
  vm_compute in Hrun. injection Hrun as _ <-.
  apply (Hquiet (EvReorg 4)); [|exact I].
  vm_compute. apply list_elem_of_further, list_elem_of_here.
Qed.



(** The scenario to its end: after the Reorg the ingestor fetches the
    node's block 4 and block 5 and appends them; the cache holds blocks
    1 to 5, linked again. *)
Example reorg_recovery :
  let w' := snd (BlockIngestor (BC:=CodeCache.ops) (E:=node_reorganised)
                   4 3 with_four) in
  SpecCache.window (cache w')
  = [block 1 x01 x00; block 2 x02 x01; block 3 x03 x02;
     block 4 xdd x03; block 5 xee xdd] /\
  List.filter (fun ev => match ev with
                         | EvAdd _ _ | EvReorg _ => true
                         | _ => false
                         end) (events w')
  = [EvReorg 4; EvAdd 4 (block 4 xdd x03); EvAdd 5 (block 5 xee xdd)].
Proof. vm_compute. split; reflexivity. Qed.

(** An empty cache at its first height and a node that has no block
    there yet: the loop started by startIngestor leaves by the
    bootstrapping path, and the next startIngestor starts nothing. *)
Lemma startIngestor_after_loop_exit_witness :
  startIngestor empty_at_1 = (Done tt, snd (startIngestor empty_at_1)) /\
  exists w2,
    BlockIngestor (E:=node_behind) 3 0 (snd (startIngestor empty_at_1))
      = (Done Returned, w2) /\
    ingestorRunning w2 = true /\
    startIngestor w2 = (Done tt, w2).
Proof.
  split; [reflexivity|].
  pose (w1 := snd (startIngestor empty_at_1)).
  pose (w2 := snd (BlockIngestor (E:=node_behind) 3 0 w1)).
  assert (Hloop : BlockIngestor (E:=node_behind) 3 0 w1 = (Done Returned, w2))
    by (vm_compute; reflexivity).
  exists w2. split; [exact Hloop|].
  exact (proj2 (proj2 (startIngestor_after_loop_exit (E:=node_behind) 3 0
                         empty_at_1 w1 w2 Returned eq_refl Hloop))).
Defined.

Lemma no_restart_after_bootstrap_exit :
  ~ restarts_after_exit (E:=node_behind) 3 empty_at_1.
Proof.
  intros Hc.
  pose (w1 := snd (startIngestor empty_at_1)).
  pose (w2 := snd (BlockIngestor (E:=node_behind) 3 0 w1)).
  assert (Hloop : BlockIngestor (E:=node_behind) 3 0 w1 = (Done Returned, w2))
    by (vm_compute; reflexivity).
  specialize (Hc w1 w2 eq_refl Hloop).
  vm_compute in Hc. discriminate.
Qed.

(** The loop of that scenario did leave by the bootstrapping path. *)
Example bootstrap_exit_events :
  events (snd (BlockIngestor (E:=node_behind) 3 0
                 (snd (startIngestor empty_at_1))))
  = [EvRawRequest "getbestblockhash" [];
     EvRawRequest "getblock" [quoted "1"; "0"];
     EvSync;
     EvLogInfo "Waiting for zcashd height to reach Sapling activation height ";
     EvSleep (20 * Second)].
Proof. reflexivity. Qed.

(** C3 (where the code fails it): a block of height 5 with one
    transaction and a verbose reply that lists no transaction id, a list
    shorter than the parsed transactions: the fetcher does not return an
    error, it crashes on [block1.Tx[0]]. *)
Theorem getBlockFromRPC_short_list_panics :
  fst (getBlockFromRPC (E:=node_short_list) 5 with_four)
  = Aborted (Panic "index out of range").
Proof.
  apply (getBlockFromRPC_short_txid_list (E:=node_short_list) 5 with_four
           (mkBlock_ 5 [xee] [x04] [[]])).
  - exists (quoted "05ee0401"), "05ee0401", [x05; xee; x04; x01].
    split_and!; reflexivity.
  - exists EmptyString, (mkGetblock1 []).
    split_and!; [reflexivity|reflexivity|constructor|simpl; lia].
Qed.

(** A verbose reply that lists more ids than the block has transactions
    is taken without complaint. *)
Example getBlockFromRPC_long_list_accepted :
  fst (getBlockFromRPC (E:=node_long_list) 5 with_four)
  = Done (Some (mkBlock 1 5 [xee] [x04] 0 [] [mkTx 0 [xaa] 0 [] [] []]), None).
Proof. vm_compute. reflexivity. Qed.

(** A refusal with code -8 comes back as (nil, nil); a refusal with
    code -80 comes back as an error. *)
Lemma getBlockFromRPC_rpc_error_witness :
  fst (getBlockFromRPC (E:=node_not_yet) 9 with_four) = Done (None, None) /\
  fst (getBlockFromRPC (E:=node_warming_up) 9 with_four)
  = Done (None, Some (errors_Wrap (errorString "-80: Loading block index")
                                  "error requesting block")).
Proof.
  split.
  - apply (getBlockFromRPC_rpc_error (E:=node_not_yet) 9 with_four
             EmptyString (errorString "-8: Block height out of range") eq_refl).
    right. exists " Block height out of range". reflexivity.
  - apply (getBlockFromRPC_rpc_error (E:=node_warming_up) 9 with_four
             EmptyString (errorString "-80: Loading block index") eq_refl).
    intros [Hc|[message Hc]]; discriminate.
Defined.

Lemma GetBlock_newer_than_tip_witness :
  Get (cache with_four) 9 = None /\
  fst (GetBlock (E:=node_not_yet) 9 with_four)
  = Done (None, Some (errors_New "block requested is newer than latest block")).
Proof.
  assert (Hmiss : Get (cache with_four) 9 = None) by reflexivity.
  split; [exact Hmiss|].
  pose (w' := snd (getBlockFromRPC (E:=node_not_yet) 9 with_four)).
  assert (Hfetch : getBlockFromRPC (E:=node_not_yet) 9 with_four
                   = (Done (None, None), w')) by reflexivity.
  rewrite (GetBlock_newer_than_tip (E:=node_not_yet) 9 with_four w'
             Hmiss Hfetch).
  reflexivity.
Defined.

Lemma GetLightdInfo_swallows_unmarshal_error_witness :
  fst (GetLightdInfo (E:=node_garbled) with_four) = Done (None, None).
Proof.
  apply (GetLightdInfo_swallows_unmarshal_error (E:=node_garbled) with_four).
  right. exists "v4.7.0", (mkGetinfo "v4.7.0" "/MagicBean/"), "?",
           (errorString "invalid character").
  split_and!; reflexivity.
Defined.

(** Heights 5 to 8 asked of a node that has 5, 6 and 7: three blocks,
    then one error. *)
Lemma GetBlockRange_emits_range_witness :
  exists w',
    GetBlockRange (E:=node_three_blocks) 10 5 8 0 with_four
      = (Done Returned, w') /\
    exists bs e,
      blockOut w' = bs /\ errOut w' = [e] /\
      Forall2 (served (E:=node_three_blocks) 0 with_four)
              (take (length bs) (range_heights 5 8)) bs.
Proof.
  pose proof (GetBlockRange_emits_range (E:=node_three_blocks) 10 5 8 0
                with_four) as Hspec.
  destruct Hspec as (_ & _ & _ & Hout).
  - unfold GoInt.in_range, GoInt.min_int, GoInt.max_int. lia.
  - unfold GoInt.in_range, GoInt.min_int, GoInt.max_int. lia.
  - unfold GoInt.max_int. lia.
  - simpl. lia.
  - pose (w' := snd (GetBlockRange (E:=node_three_blocks) 10 5 8 0 with_four)).
    assert (Hrun : GetBlockRange (E:=node_three_blocks) 10 5 8 0 with_four
                   = (Done Returned, w')) by (vm_compute; reflexivity).
    exists w'. split; [exact Hrun|].
    destruct (Hout _ _ Hrun) as (_ & bs & e & Hbs & Hes & Hserved & _).
    exists bs, e. split_and!; [exact Hbs|exact Hes|exact Hserved].
Defined.

(** The two-transaction block filtered with threshold 1. *)
Lemma FilterSpammyBlock_spec_witness :
  Pointers.read_block heap2 1%positive = Some block2 /\
  exists h' newBlock b',
    Pointers.FilterSpammyBlock heap2 1%positive 1 = Some (h', newBlock) /\
    Pointers.read_block h' 1%positive = Some block2 /\
    Pointers.read_block h' newBlock = Some b' /\
    block_filtered 1 block2 b'.
Proof.
  split; [reflexivity|].
  destruct (PointersFacts.FilterSpammyBlock_spec heap2 1%positive block2 1
              eq_refl) as [_ Hpos].
  destruct (Hpos ltac:(lia)) as (h' & q & b' & Hf & _ & _ & Hold & Hnew & Hb & _).
  exists h', q, b'. split_and!; assumption.
Defined.

End Scenarios.

(** * More of the package *)

(** ** Strings and hex *)

(** Splitting at the colons loses nothing: the pieces have no colon in
    them, there is at least one, and joined with colons they give the
    string back. *)
Theorem strings_Split_colon_join s :
  strings_Join_colon (strings_Split_colon s) = s /\
  Forall (fun piece => ~ contains_colon piece) (strings_Split_colon s) /\
  strings_Split_colon s <> [].
Proof.
  split_and!; [apply strings_Join_Split_colon| |apply strings_Split_colon_nonempty].
  induction s as [|c rest IH]; simpl.
  - constructor; [|constructor]. simpl. tauto.
  - destruct (Ascii.eqb_spec c ":") as [->|Hc].
    + constructor; [simpl; tauto|exact IH].
    + destruct (strings_Split_colon rest) as [|p ps].
      * constructor; [|constructor]. simpl. tauto.
      * inversion IH as [|? ? Hp Hps]; subst.
        constructor; [|exact Hps]. simpl. tauto.
Qed.

(** The test for "height not yet produced" accepts exactly the errors
    whose text is "-8" or starts with "-8:"; a code such as -80 or -84 does
    not pass. *)
Theorem is_code_minus8_iff (rpcErr : error) :
  is_code_minus8 rpcErr = true <->
  Error_string rpcErr = "-8" \/
  exists rest, Error_string rpcErr = ("-8:" ++ rest)%string.
Proof. apply is_code_minus8_text. Qed.

Lemma hex_DecodeString_byte (v : byte) (rest : string) :
  hex_DecodeString
    (String (hextable (Byte.to_N v / 16))
            (String (hextable (Byte.to_N v mod 16)) rest))
  = match hex_DecodeString rest with
    | inl e => inl e
    | inr bs => inr (v :: bs)
    end.
Proof. destruct v; reflexivity. Qed.

Lemma hex_decode_encode_bytes (src : bytes) :
  hex_DecodeString (hex_EncodeToString src) = inr src.
Proof.
  induction src as [|v rest IH]; [reflexivity|].
  change (hex_EncodeToString (v :: rest))
    with (String (hextable (Byte.to_N v / 16))
            (String (hextable (Byte.to_N v mod 16)) (hex_EncodeToString rest))).
  rewrite hex_DecodeString_byte, IH. reflexivity.
Qed.

(** Decoding what [hex.EncodeToString] wrote gives the bytes back, and
    what it wrote has two characters per byte. *)
Theorem hex_decode_encode (src : bytes) :
  hex_DecodeString (hex_EncodeToString src) = inr src /\
  String.length (hex_EncodeToString src) = (2 * length src)%nat.
Proof.
  split; [apply hex_decode_encode_bytes|].
  induction src as [|v rest IH]; [reflexivity|]. simpl in *. lia.
Qed.

(** Induction on strings two characters at a time. *)
Lemma string_pair_ind (P : string -> Prop) :
  P EmptyString ->
  (forall c, P (String c EmptyString)) ->
  (forall c1 c2 s, P s -> P (String c1 (String c2 s))) ->
  forall s, P s.
Proof.
  intros H0 H1 H2 s.
  assert (H : P s /\ forall c, P (String c s)); [|tauto].
  induction s as [|c s [IHs IHcs]]; [auto|].
  split; [apply IHcs|]. intros c'. by apply H2.
Qed.

(** [hex.DecodeString] succeeds exactly on the strings of even length
    made of hex digits, and then returns one byte per two characters. *)
Theorem hex_DecodeString_ok_iff (s : string) :
  ((exists bs, hex_DecodeString s = inr bs) <->
   Nat.even (String.length s) = true /\ all_hex_digits s) /\
  (forall bs, hex_DecodeString s = inr bs ->
              String.length s = (2 * length bs)%nat).
Proof.
  induction s as [|c|c1 c2 s [IHiff IHlen]] using string_pair_ind.
  - split; [|by intros bs [= <-]].
    split; [by intros _|]. intros _. by exists [].
  - simpl. unfold is_hex_digit.
    destruct (fromHexChar c); split; try (by intros bs [=]);
      split; try (by intros [bs [=]]); try (by intros [[=] _]).
  - change (hex_DecodeString (String c1 (String c2 s)))
      with (match fromHexChar c1, fromHexChar c2 with
            | None, _ => inl (hex_InvalidByteError c1)
            | _, None => inl (hex_InvalidByteError c2)
            | Some a, Some b =>
                match hex_DecodeString s with
                | inl e => inl e
                | inr bs => inr (byte_of_nibbles a b :: bs)
                end
            end).
    simpl String.length. simpl all_hex_digits. unfold is_hex_digit.
    change (Nat.even (S (S (String.length s))))
      with (Nat.even (String.length s)).
    destruct (fromHexChar c1) as [a|], (fromHexChar c2) as [b|];
      try (split; [split; [by intros [bs [=]]|intros (_ & H1 & H2 & _); done]
                  |by intros bs [=]]).
    destruct (hex_DecodeString s) as [e|bs0] eqn:Hs.
    + split; [|by intros bs [=]].
      split; [by intros [bs [=]]|]. intros (Hev & _ & _ & Hall).
      destruct (proj2 IHiff (conj Hev Hall)) as [bs [=]].
    + split.
      * split; [|by eauto]. intros _.
        destruct (proj1 IHiff (ex_intro _ bs0 eq_refl)) as [Hev Hall].
        split_and!; done.
      * intros bs [= <-]. simpl. rewrite (IHlen bs0 eq_refl). lia.
Qed.

Section BestBlockHash.

Context {C : Type} {BC : BlockCacheOps C} {E : Externals}.

(** A tip hash that the node reports in display form, as [displayHash]
    writes it, is returned by [getBestBlockHash] in its internal order,
    with a nil error. *)
Theorem getBestBlockHash_displayHash (w : World C) result (hash : bytes) :
  RawRequest (requests w) "getbestblockhash" [] = (result, None) ->
  json_Unmarshal_string result = inr (displayHash hash) ->
  fst (getBestBlockHash w) = Done (hash, None).
Proof.
  intros Hreq Hjson. unfold getBestBlockHash, bind, rawRequest, ret. simpl.
  rewrite Hreq, Hjson. unfold displayHash. rewrite hex_decode_encode_bytes.
  simpl. unfold Reverse. by rewrite rev_involutive.
Qed.

End BestBlockHash.

(** ** More of the fetcher *)

Section MoreFetcher.

Context {C : Type} {BC : BlockCacheOps C} {E : Externals}.

Lemma set_txids_ok (ids : list bytes) : forall (i : nat) tx block,
  Forall2 (fun s id => hex_DecodeString s = inr id)
          (take (length ids) (drop i tx)) ids ->
  set_txids (length ids) i tx block = Done (inr (overwrite_txids i ids block)).
Proof.
  induction ids as [|id ids IH]; intros i tx block Hdec; [reflexivity|].
  simpl in *. destruct (drop i tx) as [|s rest] eqn:Hdrop;
    [inversion Hdec|].
  inversion Hdec as [|? ? ? ? Hs Hrest]; subst.
  assert (Hi : tx !! i = Some s).
  { rewrite <- (Nat.add_0_r i), <- lookup_drop, Hdrop. reflexivity. }
  rewrite Hi, Hs. apply IH.
  replace (drop (S i) tx) with rest; [exact Hrest|].
  pose proof (drop_S _ _ _ Hi) as Hd. rewrite Hdrop in Hd. congruence.
Qed.

(** When both replies are well formed, the fetcher returns the compact
    form of the parsed block in which transaction i carries the i-th id
    of the verbose reply, byte-reversed, and a nil error; ids listed
    beyond the block's transactions are not looked at. *)
Theorem getBlockFromRPC_success height (w : World C) block ids :
  first_reply_parses height w block ->
  verbose_reply_lists height w block ids ->
  fst (getBlockFromRPC height w)
  = Done (Some (ToCompact (overwrite_txids 0 ids block)), None).
Proof.
  intros (result & blockDataHex & blockData & Hreq & Hjson & Hhex & Hparse & Hh)
         (result2 & block1 & Hreq2 & Hjson2 & Hlen & Hids).
  unfold getBlockFromRPC. simpl in *.
  unfold bind, rawRequest, ret, abort. simpl.
  rewrite Hreq, Hjson, Hhex, Hparse. simpl.
  rewrite (proj2 (Z.eqb_eq _ _) Hh). simpl.
  rewrite Hreq2, Hjson2, <- Hlen.
  rewrite set_txids_ok; [reflexivity|]. rewrite drop_0, Hlen. exact Hids.
Qed.

Lemma set_txids_bad (k : nat) : forall (n i : nat) tx block s err,
  (k < n)%nat ->
  tx !! (i + k)%nat = Some s -> hex_DecodeString s = inl err ->
  Forall (fun s => exists txid, hex_DecodeString s = inr txid)
         (take k (drop i tx)) ->
  set_txids n i tx block
  = Done (inl (errors_Wrap err "error decoding getblock txid")).
Proof.
  induction k as [|k IH]; intros n i tx block s err Hk Hs Herr Hok;
    (destruct n as [|n]; [lia|]); simpl.
  - rewrite Nat.add_0_r in Hs. by rewrite Hs, Herr.
  - destruct (drop i tx) as [|s0 rest] eqn:Hdrop.
    { apply lookup_lt_Some in Hs.
      assert (length (drop i tx) = 0%nat) by (by rewrite Hdrop).
      rewrite length_drop in *. lia. }
    assert (Hi : tx !! i = Some s0).
    { rewrite <- (Nat.add_0_r i), <- lookup_drop, Hdrop. reflexivity. }
    simpl in Hok. inversion Hok as [|? ? [txid Htx] Hrest]; subst.
    rewrite Hi, Htx. apply (IH n (S i) tx _ s err); [lia| |exact Herr|].
    + by replace (S i + k)%nat with (i + S k)%nat by lia.
    + replace (drop (S i) tx) with rest; [exact Hrest|].
      pose proof (drop_S _ _ _ Hi) as Hd. rewrite Hdrop in Hd. congruence.
Qed.

(** An id of the verbose reply that is no hex string, met before the
    list runs out, comes back as the wrapped error "error decoding
    getblock txid", with a nil block. *)
Theorem getBlockFromRPC_bad_txid height (w : World C) block err :
  first_reply_parses height w block ->
  verbose_reply_bad_txid height w block err ->
  fst (getBlockFromRPC height w)
  = Done (None, Some (errors_Wrap err "error decoding getblock txid")).
Proof.
  intros (result & blockDataHex & blockData & Hreq & Hjson & Hhex & Hparse & Hh)
         (result2 & block1 & k & s & Hreq2 & Hjson2 & Hk & Hs & Herr & Hok).
  unfold getBlockFromRPC. simpl in *.
  unfold bind, rawRequest, ret, abort. simpl.
  rewrite Hreq, Hjson, Hhex, Hparse. simpl.
  rewrite (proj2 (Z.eqb_eq _ _) Hh). simpl.
  rewrite Hreq2, Hjson2.
  rewrite (set_txids_bad k _ 0 _ _ s err); [reflexivity|exact Hk|exact Hs|
                                            exact Herr|by rewrite drop_0].
Qed.

Lemma set_txids_abort n : forall i tx block why,
  set_txids n i tx block = Aborted why -> why = Panic "index out of range".
Proof.
  induction n as [|n IH]; intros i tx block why; simpl; [discriminate|].
  destruct (tx !! i) as [s|]; [|by intros [= <-]].
  destruct (hex_DecodeString s); [discriminate|]. apply IH.
Qed.

Lemma getBlockFromRPC_cases height (w : World C) :
  match fst (getBlockFromRPC height w) with
  | Done (Some _, Some _) => False
  | Done _ => True
  | Aborted why => why = Panic "index out of range"
  end /\
  (requests w < requests (snd (getBlockFromRPC height w)) <= requests w + 2)%nat.
Proof.
  unfold getBlockFromRPC. simpl. unfold bind, rawRequest, ret, abort. simpl.
  destruct (RawRequest (requests w) _ _) as [result [rpcErr|]]; simpl.
  { destruct (is_code_minus8 rpcErr); simpl; split; [done|lia|done|lia]. }
  destruct (json_Unmarshal_string result) as [err|blockDataHex]; simpl;
    [split; [done|lia]|].
  destruct (hex_DecodeString blockDataHex) as [err|blockData]; simpl;
    [split; [done|lia]|].
  destruct (ParseFromSlice blockData) as [err|[block rest]]; simpl;
    [split; [done|lia]|].
  destruct (negb (length rest =? 0)%nat); simpl; [split; [done|lia]|].
  destruct (negb (Block_GetHeight block =? height)); simpl;
    [split; [done|lia]|].
  destruct (RawRequest (S (requests w)) _ _) as [result2 [rpcErr2|]]; simpl;
    [split; [done|lia]|].
  destruct (json_Unmarshal_Getblock1 result2) as [err|block1]; simpl;
    [split; [done|lia]|].
  destruct (set_txids _ _ _ _) as [[err|block']|why] eqn:Hset; simpl;
    (split; [|lia]); try done.
  exact (set_txids_abort _ _ _ _ _ Hset).
Qed.

(** Whatever the node replies, the fetcher ends in one of four ways: a
    block and no error, an error and no block, neither (not yet
    available), or the index panic; it never returns a block together
    with an error and never calls [Log.Fatal]. It makes one or two
    requests and touches nothing but the RPC client. *)
Theorem getBlockFromRPC_outcomes height (w : World C) :
  match fst (getBlockFromRPC height w) with
  | Done (Some _, Some _) => False
  | Done _ => True
  | Aborted why => why = Panic "index out of range"
  end /\
  (requests w < requests (snd (getBlockFromRPC height w)) <= requests w + 2)%nat /\
  only_requests w (snd (getBlockFromRPC height w)).
Proof.
  destruct (getBlockFromRPC_cases height w) as [Hout Hreq].
  split; [exact Hout|]. split; [exact Hreq|].
  apply getBlockFromRPC_only_requests.
Qed.

End MoreFetcher.

(** ** More of the range server *)

Section MoreRangeServer.

Context {C : Type} {BC : BlockCacheOps C} {E : Externals}.

Lemma GetBlock_cases height (w : World C) :
  match fst (GetBlock height w) with
  | Done (Some _, None) | Done (None, Some _) => True
  | Done _ => False
  | Aborted why => why = Panic "index out of range"
  end.
Proof.
  unfold GetBlock, bind, read_cache, ret. simpl.
  destruct (Get (cache w) height) as [b|]; [exact I|].
  pose proof (getBlockFromRPC_cases height w) as [Hout _].
  destruct (getBlockFromRPC height w) as [[[block err]|why] w1]; simpl in *;
    [|exact Hout].
  destruct err; [exact I|]. destruct block; exact I.
Qed.

(** [GetBlock] returns a block or an error, never both and never
    neither; short of that only the fetcher's index panic stops it. A
    block that is in the cache is returned without any request. *)
Theorem GetBlock_block_or_error height (w : World C) :
  match fst (GetBlock height w) with
  | Done (Some _, None) | Done (None, Some _) => True
  | Done _ => False
  | Aborted why => why = Panic "index out of range"
  end /\
  (forall b, Get (cache w) height = Some b ->
             GetBlock height w = (Done (Some b, None), w)).
Proof.
  split; [apply GetBlock_cases|].
  intros b Hhit. unfold GetBlock, bind, read_cache, ret. simpl.
  by rewrite Hhit.
Qed.

(** A block in the cache is served from the cache: no request is made
    and the world is left as it was. *)
Lemma GetBlock_cached height (w : World C) b :
  Get (cache w) height = Some b ->
  GetBlock height w = (Done (Some b, None), w).
Proof.
  intros Hhit. unfold GetBlock, bind, read_cache, ret. simpl.
  by rewrite Hhit.
Qed.

Lemma GetBlockRange_loop_abort fuel start end_ low high thr :
  forall i (w w' : World C) why,
    GetBlockRange_loop fuel start end_ low high thr i w = (Aborted why, w') ->
    why = Panic "index out of range".
Proof.
  induction fuel as [|fuel IH]; intros i w w' why; simpl; [discriminate|].
  destruct (i <=? high); [|discriminate].
  unfold bind at 1.
  set (j := if end_ <? start then _ else _).
  pose proof (GetBlock_cases j w) as Hget.
  destruct (GetBlock j w) as [[[block err]|why1] w1]; simpl in Hget.
  - destruct err as [err|]; [discriminate|].
    destruct block as [b|]; [|done].
    unfold FilterSpammyBlock_value.
    destruct (thr =? 0); unfold bind at 1; simpl; apply IH.
  - intros [= <- _]. exact Hget.
Qed.

(** [GetBlockRange] never passes a nil block to the filter: the only
    thing that can stop it short of its error channel is the fetcher's
    index panic. *)
Theorem GetBlockRange_abort fuel start end_ thr (w w' : World C) why :
  GetBlockRange fuel start end_ thr w = (Aborted why, w') ->
  why = Panic "index out of range".
Proof. unfold GetBlockRange. apply GetBlockRange_loop_abort. Qed.

Lemma stream_heights_cached thr hs : forall (w : World C),
  (forall h, h ∈ hs -> is_Some (Get (cache w) h)) ->
  stream_heights hs thr w
  = (Done Returned,
     mkWorld (cache w) (requests w) (clock w) (events w)
             (ingestorRunning w) (stopWaiting w) (spawned w)
             (blockOut w ++ cached_blocks (cache w) thr hs)
             (errOut w ++ [None])).
Proof.
  induction hs as [|h hs IH]; intros w Hall; simpl.
  - unfold bind, send_err, ret. simpl. by rewrite app_nil_r.
  - destruct (Hall h ltac:(apply list_elem_of_here)) as [b Hb].
    unfold bind at 1. rewrite (GetBlock_cached h w b Hb).
    unfold FilterSpammyBlock_value. rewrite Hb.
    destruct (thr =? 0); unfold bind at 1; simpl;
      (rewrite IH; [simpl; by rewrite <- app_assoc|]);
      intros h' Hh'; apply Hall; by apply list_elem_of_further.
Qed.

(** A range whose heights are all in the cache is served without any
    request to the node: the cached blocks, filtered, go out in the order
    of the range, then a single nil on the error channel; nothing else
    in the world changes. *)
Theorem GetBlockRange_cached fuel start end_ thr (w : World C) :
  GoInt.in_range start -> GoInt.in_range end_ ->
  Z.max start end_ < GoInt.max_int ->
  (Z.to_nat (Z.abs (end_ - start)) + 2 <= fuel)%nat ->
  range_cached w start end_ ->
  GetBlockRange fuel start end_ thr w
  = (Done Returned,
     mkWorld (cache w) (requests w) (clock w) (events w)
             (ingestorRunning w) (stopWaiting w) (spawned w)
             (blockOut w
                ++ cached_blocks (cache w) thr (range_heights start end_))
             (errOut w ++ [None])).
Proof.
  intros Hs He Hmax Hfuel Hcached.
  rewrite GetBlockRange_stream by assumption.
  apply stream_heights_cached. intros h Hh.
  apply Hcached. by apply range_heights_elem.
Qed.

End MoreRangeServer.

(** ** More of the ingestor *)

Section MoreIngestor.

Context {C : Type} {BC : BlockCacheOps C} {E : Externals}.

(** At the tip (the node's best hash is the cache's latest hash) an
    iteration makes its one request, calls Sync, sleeps two seconds and
    goes on; it fetches nothing and calls neither Add nor Reorg. It logs
    "Waiting for block" only when the height waited for has changed. *)
Theorem ingestor_at_tip locals (w : World C) best :
  tip_hash_is w best ->
  best = Reverse (GetLatestHash (cache w)) ->
  exists w',
    BlockIngestor_body locals w
    = (Done (Continue (mkLocals (clock w + 2 * Second)
                                (GoInt.sub (GetNextHeight (cache w)) 1))),
       w') /\
    cache w' = Sync (cache w) /\
    clock w' = clock w + 2 * Second /\
    requests w' = S (requests w) /\
    events w'
    = events w
      ++ [EvRawRequest "getbestblockhash" []; EvSync]
      ++ (if lastHeightLogged locals =? GoInt.sub (GetNextHeight (cache w)) 1
          then [] else [EvLogInfo "Waiting for block: "])
      ++ [EvSleep (2 * Second)].
Proof.
  intros (Hstop & result & hashHex & Hreq & Hjson & Hhex) Hbest.
  unfold BlockIngestor_body, bind at 1, try_recv_stop. rewrite Hstop.
  unfold bind at 1. unfold rawRequest. simpl. rewrite Hreq, Hjson, Hhex.
  unfold bind at 1. unfold read_cache at 1. simpl.
  unfold bind at 1. unfold read_cache at 1. simpl.
  rewrite bool_decide_true by exact Hbest.
  unfold cache_Sync, Log_Info, bind, read_cache, emit, set_cache, Time_Sleep,
    Time_Now, ret. simpl.
  destruct (Z.eqb_spec (lastHeightLogged locals)
              (GoInt.sub (GetNextHeight (cache w)) 1)) as [Heq|Hne]; simpl.
  - eexists. rewrite Heq. split; [reflexivity|]. simpl.
    split_and!; try reflexivity. by rewrite <- !app_assoc.
  - eexists. split; [reflexivity|]. simpl.
    split_and!; try reflexivity. by rewrite <- !app_assoc.
Qed.

Lemma fetch_keeps_cache_clock (w w2 : World C) height r :
  getBlockFromRPC height (world_at_fetch w) = (r, w2) ->
  cache w2 = cache w /\ clock w2 = clock w.
Proof.
  intros Hfetch.
  pose proof (getBlockFromRPC_only_requests height (world_at_fetch w)) as F.
  rewrite Hfetch in F. destruct F as (Hc & Hk & _). auto.
Qed.

(** When the fetched block chains onto the cache's tail, the iteration
    calls Add with the next height and that block, and nothing else on
    the cache; a failing Add is fatal; otherwise the loop goes on, and
    "Adding block to cache" is logged only in darkside mode or when four
    seconds have passed since the last such line. *)
Theorem ingestor_appends locals (w w2 : World C) b :
  reaches_fetch w ->
  getBlockFromRPC (GetNextHeight (cache w)) (world_at_fetch w)
    = (Done (Some b, None), w2) ->
  HashMatch (cache w) (PrevHash b) = true ->
  match snd (Add (cache w) (GetNextHeight (cache w)) b) with
  | Some _ =>
      fst (BlockIngestor_body locals w) = Aborted (LogFatal "Cache add failed:")
  | None =>
      let logs := DarksideEnabled || (4 * Second <=? clock w - lastLog locals) in
      exists w',
        BlockIngestor_body locals w
        = (Done (Continue (if logs
                           then mkLocals (clock w) (lastHeightLogged locals)
                           else locals)), w') /\
        cache w' = fst (Add (cache w) (GetNextHeight (cache w)) b) /\
        events_after w2 w'
        = EvAdd (GetNextHeight (cache w)) b
            :: (if logs then [EvLogInfo "Adding block to cache "] else [])
  end.
Proof.
  intros Hreach Hfetch Hmatch.
  rewrite (body_after_fetch locals w w2 (Some b) Hreach Hfetch).
  destruct (fetch_keeps_cache_clock _ _ _ _ Hfetch) as [Hc Hk].
  unfold ingest_fetched, cache_Add, bind, read_cache, emit, set_cache, ret,
    Log_Fatal, abort, Time_Now, Log_Info. simpl.
  rewrite ?Hc, ?Hk, Hmatch. simpl. rewrite ?Hc, ?Hk.
  destruct (snd (Add (cache w) (GetNextHeight (cache w)) b)); [reflexivity|].
  simpl. rewrite ?Hk.
  destruct (DarksideEnabled || (4 * Second <=? clock w - lastLog locals));
    simpl; eexists; (split; [reflexivity|]); simpl; (split; [reflexivity|]);
    apply events_after_app; simpl; by rewrite <- ?app_assoc.
Qed.

(** An error from the fetcher is fatal to the loop: the iteration ends
    in [Log.Fatal] without a call on the cache. *)
Theorem ingestor_fetch_error_fatal locals (w w2 : World C) block err :
  reaches_fetch w ->
  getBlockFromRPC (GetNextHeight (cache w)) (world_at_fetch w)
    = (Done (block, Some err), w2) ->
  BlockIngestor_body locals w
    = (Aborted (LogFatal "getblock failed, will retry"), w2) /\
  cache w2 = cache w /\
  Forall is_request (drop (length (events w)) (events w2)).
Proof.
  intros (Hstop & result & hashHex & best & Hreq & Hjson & Hhex & Hne) Hfetch.
  split_and!.
  - unfold world_at_fetch in Hfetch.
    unfold BlockIngestor_body, bind at 1, try_recv_stop. rewrite Hstop.
    unfold bind at 1. unfold rawRequest in *. simpl in *. rewrite Hreq.
    rewrite Hjson, Hhex. unfold bind at 1. unfold read_cache at 1. simpl.
    unfold bind at 1. unfold read_cache at 1. simpl.
    rewrite bool_decide_false by exact Hne.
    unfold bind at 1. rewrite Hfetch. reflexivity.
  - by destruct (fetch_keeps_cache_clock _ _ _ _ Hfetch).
  - pose proof (only_requests_trans _ _ _
                  (rawRequest_only_requests "getbestblockhash" [] w)
                  (getBlockFromRPC_only_requests
                     (GetNextHeight (cache w)) (world_at_fetch w))) as F.
    unfold world_at_fetch in *. rewrite Hfetch in F.
    destruct F as (_ & _ & _ & _ & _ & _ & _ & reqs & He & Hf & _).
    simpl in He. rewrite He, drop_app_length. exact Hf.
Qed.

(** A tip-hash reply that is an RPC error, or not a JSON string, or not
    hex, is fatal to the loop, after that one request. *)
Theorem ingestor_tip_error_fatal locals (w : World C) :
  stopWaiting w = 0%nat ->
  match RawRequest (requests w) "getbestblockhash" [] with
  | (_, Some _) => True
  | (result, None) =>
      match json_Unmarshal_string result with
      | inl _ => True
      | inr hashHex =>
          match hex_DecodeString hashHex with
          | inl _ => True
          | inr _ => False
          end
      end
  end ->
  exists msg,
    BlockIngestor_body locals w = (Aborted (LogFatal msg), world_at_fetch w).
Proof.
  intros Hstop Hbad.
  unfold BlockIngestor_body, bind at 1, try_recv_stop. rewrite Hstop.
  unfold bind at 1. unfold world_at_fetch, rawRequest. simpl.
  destruct (RawRequest (requests w) "getbestblockhash" [])
    as [result [err|]]; [eauto|].
  destruct (json_Unmarshal_string result) as [err|hashHex]; [eauto|].
  destruct (hex_DecodeString hashHex) as [err|best]; [eauto|done].
Qed.

(** A loop that finds a stop request waiting returns at once: it
    releases the sender and does nothing else. *)
Theorem BlockIngestor_stops fuel rep (w : World C) n :
  stopWaiting w = S n -> 0 <= rep ->
  BlockIngestor (S fuel) rep w
  = (Done Returned,
     mkWorld (cache w) (requests w) (clock w) (events w)
             (ingestorRunning w) n (spawned w) (blockOut w) (errOut w)).
Proof.
  intros Hstop Hrep. unfold BlockIngestor, bind at 1, Time_Now. simpl.
  assert (Hc : (rep =? 0) || (0 <? rep) = true).
  { destruct (Z.eqb_spec rep 0); [done|].
    destruct (Z.ltb_spec 0 rep); [done|lia]. }
  rewrite Hc. unfold BlockIngestor_body, bind at 1.
  unfold bind at 1. unfold try_recv_stop. rewrite Hstop. reflexivity.
Qed.

Lemma BlockIngestor_loop_terminates rep :
  0 < rep -> GoInt.in_range rep ->
  forall (n fuel : nat) i locals (w : World C),
    0 <= i -> Z.of_nat n = rep - i -> (n < fuel)%nat ->
    fst (BlockIngestor_loop fuel rep i locals w) <> Done StillRunning.
Proof.
  intros Hpos Hrange.
  induction n as [|n IH]; intros fuel i locals w Hi Hn Hfuel;
    (destruct fuel as [|fuel]; [lia|]); simpl.
  - destruct (Z.eqb_spec rep 0); [lia|].
    destruct (Z.ltb_spec i rep); [lia|]. simpl. discriminate.
  - destruct (Z.eqb_spec rep 0); [lia|].
    destruct (Z.ltb_spec i rep); [|lia]. simpl.
    unfold bind.
    destruct (BlockIngestor_body locals w) as [[[locals'|]|why] w1]; simpl;
      [|discriminate..].
    rewrite GoIntFacts.add_1_small
      by (unfold GoInt.in_range, GoInt.min_int, GoInt.max_int in *; lia).
    apply IH; lia.
Qed.

(** With a repetition count above zero the loop is over after at most
    that many iterations. *)
Theorem BlockIngestor_terminates fuel rep (w : World C) :
  0 < rep -> GoInt.in_range rep -> (Z.to_nat rep < fuel)%nat ->
  fst (BlockIngestor fuel rep w) <> Done StillRunning.
Proof.
  intros Hpos Hrange Hfuel. unfold BlockIngestor, bind, Time_Now. simpl.
  apply (BlockIngestor_loop_terminates rep Hpos Hrange (Z.to_nat rep)); lia.
Qed.

End MoreIngestor.

(** ** Leaving the loop *)

Section LeavingTheLoop.

Context {C : Type} {BC : BlockCacheOps C} {E : Externals}.

Lemma releases_ret {A} (a : A) : releases_only (C:=C) (ret a).
Proof. intros w. simpl. lia. Qed.

Lemma releases_abort {A} why : releases_only (C:=C) (A:=A) (abort why).
Proof. intros w. simpl. lia. Qed.

Lemma releases_bind {A B} (m : M C A) (k : A -> M C B) :
  releases_only m -> (forall a, releases_only (k a)) ->
  releases_only (bind m k).
Proof.
  intros Hm Hk w. unfold bind. specialize (Hm w).
  destruct (m w) as [[a|why] w1]; simpl in *; [|exact Hm].
  specialize (Hk a w1). lia.
Qed.

Lemma releases_only_requests {A} (m : M C A) :
  (forall w, only_requests w (snd (m w))) -> releases_only m.
Proof. intros Hm w. destruct (Hm w) as (_ & _ & _ & -> & _). lia. Qed.

Lemma releases_try_recv_stop : releases_only (C:=C) try_recv_stop.
Proof.
  intros w. unfold try_recv_stop. destruct (stopWaiting w) eqn:Hs; simpl; lia.
Qed.

Ltac releases_step :=
  first
    [ apply releases_ret
    | apply releases_abort
    | apply releases_try_recv_stop
    | apply releases_only_requests; intros;
      first [ apply getBlockFromRPC_only_requests
            | apply rawRequest_only_requests ]
    | apply releases_bind; [| intros ]
    | match goal with
      | |- releases_only (match ?x with _ => _ end) => destruct x
      end
    | (intros ?w; simpl; lia) ].

Lemma BlockIngestor_body_releases locals :
  releases_only (C:=C) (BlockIngestor_body locals).
Proof.
  unfold BlockIngestor_body, ingest_fetched, cache_Sync, cache_Add,
    cache_Reorg, Log_Info, Log_Fatal.
  repeat releases_step.
Qed.

Lemma ingest_fetched_return locals height block (w2 w' : World C) :
  ingest_fetched locals height block w2 = (Done Return_, w') ->
  last (events w') = Some (EvSleep (20 * Second)).
Proof.
  unfold ingest_fetched, cache_Add, cache_Sync, cache_Reorg, bind, read_cache,
    emit, set_cache, ret, Log_Fatal, abort, Time_Now, Time_Sleep, Log_Info.
  simpl.
  destruct block as [b|]; simpl.
  - destruct (HashMatch (cache w2) (PrevHash b)); simpl.
    + destruct (snd (Add _ _ _)); simpl; [discriminate|].
      destruct (_ || _); discriminate.
    + destruct (height =? GetFirstHeight (cache w2)); simpl; [|discriminate].
      intros [= <-]. simpl. apply last_snoc.
  - destruct (height =? GetFirstHeight (cache w2)); simpl; [|discriminate].
    intros [= <-]. simpl. apply last_snoc.
Qed.

Lemma BlockIngestor_body_return locals (w w' : World C) :
  BlockIngestor_body locals w = (Done Return_, w') ->
  (stopWaiting w' < stopWaiting w)%nat \/
  last (events w') = Some (EvSleep (20 * Second)).
Proof.
  unfold BlockIngestor_body, bind at 1, try_recv_stop.
  destruct (stopWaiting w) as [|n] eqn:Hstop.
  - unfold bind at 1. unfold rawRequest. simpl.
    destruct (RawRequest (requests w) "getbestblockhash" [])
      as [result [err|]]; [discriminate|].
    destruct (json_Unmarshal_string result) as [err|hashHex]; [discriminate|].
    destruct (hex_DecodeString hashHex) as [err|best]; [discriminate|].
    unfold bind at 1. unfold read_cache at 1. simpl.
    unfold bind at 1. unfold read_cache at 1. simpl.
    destruct (bool_decide _).
    + unfold cache_Sync, Log_Info, bind, read_cache, emit, set_cache,
        Time_Sleep, Time_Now, ret. simpl.
      destruct (negb _); discriminate.
    + unfold bind at 1.
      destruct (getBlockFromRPC _ _) as [[[block err]|why] w2];
        [|discriminate].
      destruct err; [discriminate|].
      intros Hret. right. by eapply ingest_fetched_return.
  - intros [= <-]. left. simpl. lia.
Qed.

Lemma BlockIngestor_loop_return fuel : forall i locals (w w' : World C),
  BlockIngestor_loop fuel 0 i locals w = (Done Returned, w') ->
  (stopWaiting w' < stopWaiting w)%nat \/
  last (events w') = Some (EvSleep (20 * Second)).
Proof.
  induction fuel as [|fuel IH]; intros i locals w w'; simpl; [discriminate|].
  unfold bind.
  pose proof (BlockIngestor_body_releases locals w) as Hrel.
  destruct (BlockIngestor_body locals w) as [[[locals'|]|why] w1] eqn:Hbody;
    simpl in Hrel; [| |discriminate].
  - intros Hloop. destruct (IH _ _ _ _ Hloop) as [Hlt|Hlast]; [left; lia|by right].
  - intros [= <-]. by apply (BlockIngestor_body_return locals w).
Qed.

(** The production loop ([rep] zero) returns only for one of two
    reasons: it has taken a stop request, or it has ended on the
    bootstrapping path with its twenty-second sleep. *)
Theorem BlockIngestor_returns_only_when fuel (w w' : World C) :
  BlockIngestor fuel 0 w = (Done Returned, w') ->
  (stopWaiting w' < stopWaiting w)%nat \/
  last (events w') = Some (EvSleep (20 * Second)).
Proof.
  unfold BlockIngestor, bind, Time_Now. simpl.
  apply BlockIngestor_loop_return.
Qed.

Lemma counts_ret {A} (a : A) : counts_up (C:=C) (ret a).
Proof. intros w. simpl. lia. Qed.

Lemma counts_abort {A} why : counts_up (C:=C) (A:=A) (abort why).
Proof. intros w. simpl. lia. Qed.

Lemma counts_bind {A B} (m : M C A) (k : A -> M C B) :
  counts_up m -> (forall a, counts_up (k a)) -> counts_up (bind m k).
Proof.
  intros Hm Hk w. unfold bind. specialize (Hm w).
  destruct (m w) as [[a|why] w1]; simpl in *; [|exact Hm].
  specialize (Hk a w1). lia.
Qed.

Lemma counts_only_requests {A} (m : M C A) :
  (forall w, only_requests w (snd (m w))) -> counts_up m.
Proof.
  intros Hm w.
  destruct (Hm w) as (_ & _ & _ & _ & _ & _ & _ & reqs & _ & _ & ->). lia.
Qed.

Lemma counts_try_recv_stop : counts_up (C:=C) try_recv_stop.
Proof.
  intros w. unfold try_recv_stop. destruct (stopWaiting w); simpl; lia.
Qed.

Ltac counts_step :=
  first
    [ apply counts_ret
    | apply counts_abort
    | apply counts_try_recv_stop
    | apply counts_only_requests; intros;
      first [ apply getBlockFromRPC_only_requests
            | apply rawRequest_only_requests ]
    | apply counts_bind; [| intros ]
    | match goal with
      | |- counts_up (match ?x with _ => _ end) => destruct x
      end
    | (intros ?w; simpl; lia) ].

Lemma BlockIngestor_body_counts locals :
  counts_up (C:=C) (BlockIngestor_body locals).
Proof.
  unfold BlockIngestor_body, ingest_fetched, cache_Sync, cache_Add,
    cache_Reorg, Log_Info, Log_Fatal.
  repeat counts_step.
Qed.

Lemma BlockIngestor_loop_counts fuel rep : forall i locals,
  counts_up (C:=C) (BlockIngestor_loop fuel rep i locals).
Proof.
  induction fuel as [|fuel IH]; intros i locals; simpl.
  - apply counts_ret.
  - destruct ((rep =? 0) || (i <? rep)); [|apply counts_ret].
    apply counts_bind; [apply BlockIngestor_body_counts|].
    intros [locals'|]; [apply IH|apply counts_ret].
Qed.

(** A computation that makes a request first and never takes one back
    has made one more at least. *)
Lemma counts_bind_first {A B} (m : M C A) (k : A -> M C B) (w : World C) :
  (requests w < requests (snd (m w)))%nat ->
  (forall a, counts_up (k a)) ->
  (requests w < requests (snd (bind m k w)))%nat.
Proof.
  intros Hm Hk. unfold bind.
  destruct (m w) as [[a|why] w1]; simpl in *; [|exact Hm].
  specialize (Hk a w1). lia.
Qed.

(** With no stop request waiting, an iteration gets to its tip-hash
    request. *)
Lemma BlockIngestor_body_asks_tip locals (w : World C) :
  stopWaiting w = 0%nat ->
  (requests w < requests (snd (BlockIngestor_body locals w)))%nat.
Proof.
  intros Hstop. unfold BlockIngestor_body, bind at 1, try_recv_stop.
  rewrite Hstop. cbv beta iota.
  apply counts_bind_first; [unfold rawRequest; simpl; lia|].
  intros a. unfold ingest_fetched, cache_Sync, cache_Add, cache_Reorg,
    Log_Info, Log_Fatal.
  repeat counts_step.
Qed.

Lemma BlockIngestor_asks_tip fuel (w : World C) :
  stopWaiting w = 0%nat ->
  (requests w < requests (snd (BlockIngestor (S fuel) 0 w)))%nat.
Proof.
  intros Hstop. unfold BlockIngestor, bind at 1, Time_Now. simpl.
  apply counts_bind_first; [by apply BlockIngestor_body_asks_tip|].
  intros [locals'|]; [apply BlockIngestor_loop_counts|apply counts_ret].
Qed.

(** Stop, stop again, start again, on a running ingestor with no other
    stop request waiting: the loop takes the request at its next
    iteration and returns, which releases the caller of stopIngestor; a
    second stopIngestor then does nothing and waits for nothing; a
    startIngestor after it starts a second loop, and no request is left
    over to stop that one: it goes on to ask the node for its tip. *)
Theorem restart_after_stop fuel fuel' (w : World C) :
  ingestorRunning w = true -> stopWaiting w = 0%nat ->
  exists w1,
    BlockIngestor (S fuel) 0 (snd (stopIngestor w)) = (Done Returned, w1) /\
    ingestorRunning w1 = false /\ stopWaiting w1 = 0%nat /\
    stopIngestor w1 = (Done tt, w1) /\
    let w2 := snd (startIngestor w1) in
    spawned w2 = S (spawned w) /\ ingestorRunning w2 = true /\
    stopWaiting w2 = 0%nat /\
    (requests w2 < requests (snd (BlockIngestor (S fuel') 0 w2)))%nat.
Proof.
  intros Hon Hnone.
  exists (mkWorld (cache w) (requests w) (clock w) (events w)
                  false 0%nat (spawned w) (blockOut w) (errOut w)).
  split.
  { rewrite (BlockIngestor_stops fuel 0 _ (stopWaiting w)); [| |lia].
    - unfold stopIngestor. rewrite Hon, Hnone. reflexivity.
    - unfold stopIngestor. rewrite Hon. reflexivity. }
  do 3 (split; [reflexivity|]). cbv zeta.
  do 3 (split; [reflexivity|]).
  apply BlockIngestor_asks_tip. reflexivity.
Qed.

(** A stop request reaches the running loop at its next iteration: the
    loop returns before any request or cache call, and the sender is
    released; the flag stays cleared. *)
Theorem stop_ends_loop fuel (w : World C) :
  ingestorRunning w = true ->
  BlockIngestor (S fuel) 0 (snd (stopIngestor w))
  = (Done Returned,
     mkWorld (cache w) (requests w) (clock w) (events w)
             false (stopWaiting w) (spawned w) (blockOut w) (errOut w)).
Proof.
  intros Hon.
  rewrite (BlockIngestor_stops fuel 0 _ (stopWaiting w)); [| |lia].
  - unfold stopIngestor. rewrite Hon. reflexivity.
  - unfold stopIngestor. rewrite Hon. reflexivity.
Qed.

End LeavingTheLoop.

(** ** The first RPC *)

Lemma backoff_time_closed (k : nat) (r : Z) :
  2 * backoff_time k r
  = Second * Z.of_nat k * (5 * Z.of_nat k + 25 + 10 * r).
Proof.
  revert r. induction k as [|k IH]; intros r; [simpl; lia|].
  change (backoff_time (S k) r)
    with ((10 + (r + 1) * 5) * Second + backoff_time k (r + 1)).
  rewrite Z.mul_add_distr_l, IH, Nat2Z.inj_succ. ring.
Qed.

Section FirstRPCFacts.

Context {C : Type} {BC : BlockCacheOps C} {E : Externals}.

Lemma FirstRPC_loop_fail fuel r warned (w : World C) :
  snd (RawRequest (requests w) "getblockchaininfo" []) <> None ->
  0 <= r < 10 ->
  FirstRPC_loop (S fuel) r warned w
  = FirstRPC_loop fuel (r + 1)
      (warned ++ ["error with getblockchaininfo rpc, retrying..."])
      (mkWorld (cache w) (S (requests w))
               (clock w + (10 + (r + 1) * 5) * Second)
               (events w ++ [EvRawRequest "getblockchaininfo" [];
                             EvSleep ((10 + (r + 1) * 5) * Second)])
               (ingestorRunning w) (stopWaiting w) (spawned w)
               (blockOut w) (errOut w)).
Proof.
  intros Hfail Hr. simpl.
  destruct (snd (RawRequest (requests w) "getblockchaininfo" []));
    [|done].
  assert (Hadd : GoInt.add r 1 = r + 1).
  { apply GoIntFacts.add_1_small;
      unfold GoInt.in_range, GoInt.min_int, GoInt.max_int; lia. }
  rewrite Hadd. destruct (Z.ltb_spec 10 (r + 1)); [lia|].
  assert (Hd : GoInt.wrap (GoInt.wrap (10 + GoInt.wrap ((r + 1) * 5)) * Second)
               = (10 + (r + 1) * 5) * Second).
  { unfold Second.
    rewrite (GoIntFacts.wrap_id ((r + 1) * 5))
      by (unfold GoInt.in_range, GoInt.min_int, GoInt.max_int; lia).
    rewrite (GoIntFacts.wrap_id (10 + (r + 1) * 5))
      by (unfold GoInt.in_range, GoInt.min_int, GoInt.max_int; lia).
    apply GoIntFacts.wrap_id.
    unfold GoInt.in_range, GoInt.min_int, GoInt.max_int; lia. }
  rewrite Hd. unfold Time_Sleep, rawRequest. simpl.
  by rewrite <- app_assoc.
Qed.

Lemma FirstRPC_loop_fails (k : nat) : forall fuel r warned (w : World C),
  0 <= r -> r + Z.of_nat k <= 10 ->
  next_requests_fail w k ->
  FirstRPC_loop (k + fuel) r warned w
  = FirstRPC_loop fuel (r + Z.of_nat k)
      (warned ++ replicate k "error with getblockchaininfo rpc, retrying...")
      (mkWorld (cache w) (requests w + k)
               (clock w + backoff_time k r)
               (events w ++ backoff_events k r)
               (ingestorRunning w) (stopWaiting w) (spawned w)
               (blockOut w) (errOut w)).
Proof.
  induction k as [|k IH]; intros fuel r warned w Hr Hk Hfail.
  - destruct w. simpl.
    rewrite !app_nil_r, !Z.add_0_r, Nat.add_0_r. reflexivity.
  - change (S k + fuel)%nat with (S (k + fuel)).
    rewrite FirstRPC_loop_fail; [|by rewrite <- (Nat.add_0_r (requests w)); apply Hfail; lia|lia].
    rewrite IH; [|lia|lia|].
    + cbn [cache requests clock events ingestorRunning stopWaiting spawned
           blockOut errOut].
      f_equal.
      * lia.
      * by rewrite <- app_assoc.
      * f_equal.
        -- lia.
        -- change (backoff_time (S k) r)
             with ((10 + (r + 1) * 5) * Second + backoff_time k (r + 1)).
           lia.
        -- by rewrite <- app_assoc.
    + intros i Hi. simpl.
      replace (S (requests w + i)) with (requests w + S i)%nat by lia.
      apply Hfail. lia.
Qed.

(** After k failed attempts, k at most ten, [FirstRPC] has made k + 1
    requests and slept 15, 20, ... seconds in between (k (5k + 25) / 2
    seconds in all), with one warning per failure; if the reply that
    then arrives parses it returns, with a warning of success when there
    were failures, and if it does not parse it ends in [Log.Fatal]. *)
Theorem FirstRPC_after_failures (k fuel : nat) (w : World C) result :
  (k <= 10)%nat -> (k < fuel)%nat ->
  next_requests_fail w k ->
  RawRequest (requests w + k) "getblockchaininfo" [] = (result, None) ->
  FirstRPC fuel w
  = (match json_Unmarshal_Getblockchaininfo result with
     | inl _ =>
         Aborted (LogFatal "error parsing JSON getblockchaininfo response: ")
     | inr _ => Done Returned
     end,
     replicate k "error with getblockchaininfo rpc, retrying..."
       ++ (if (0 <? Z.of_nat k) then ["getblockchaininfo RPC successful"]
           else []),
     mkWorld (cache w) (requests w + S k)
             (clock w + backoff_time k 0)
             (events w ++ backoff_events k 0
                ++ [EvRawRequest "getblockchaininfo" []])
             (ingestorRunning w) (stopWaiting w) (spawned w)
             (blockOut w) (errOut w)) /\
  2 * backoff_time k 0 = Second * Z.of_nat k * (5 * Z.of_nat k + 25).
Proof.
  intros Hk Hfuel Hfail Hreq. split.
  - unfold FirstRPC.
    replace fuel with (k + S (fuel - S k))%nat by lia.
    rewrite FirstRPC_loop_fails; [|lia|lia|exact Hfail].
    simpl. rewrite Hreq. simpl.
    replace (requests w + S k)%nat with (S (requests w + k)) by lia.
    rewrite <- app_assoc. rewrite (Z.add_0_l (Z.of_nat k)).
    destruct (0 <? Z.of_nat k);
      destruct (json_Unmarshal_Getblockchaininfo result);
      rewrite ?app_nil_r; reflexivity.
  - rewrite backoff_time_closed. ring.
Qed.

(** Eleven failures in a row end [FirstRPC] in [Log.Fatal], after eleven
    requests and ten sleeps, 375 seconds in all. *)
Theorem FirstRPC_gives_up (fuel : nat) (w : World C) :
  (11 <= fuel)%nat ->
  next_requests_fail w 11 ->
  FirstRPC fuel w
  = (Aborted (LogFatal
       "unable to issue getblockchaininfo RPC call to zcashd node"),
     replicate 10 "error with getblockchaininfo rpc, retrying...",
     mkWorld (cache w) (requests w + 11)
             (clock w + 375 * Second)
             (events w ++ backoff_events 10 0
                ++ [EvRawRequest "getblockchaininfo" []])
             (ingestorRunning w) (stopWaiting w) (spawned w)
             (blockOut w) (errOut w)).
Proof.
  intros Hfuel Hfail. unfold FirstRPC.
  replace fuel with (10 + S (fuel - 11))%nat by lia.
  rewrite FirstRPC_loop_fails; [|lia|lia|intros i Hi; apply Hfail; lia].
  cbn [FirstRPC_loop].
  pose proof (Hfail 10%nat ltac:(lia)) as H10.
  cbn [requests] in *.
  destruct (snd (RawRequest (requests w + 10) "getblockchaininfo" []));
    [|done].
  change (10 <? GoInt.add (0 + Z.of_nat 10) 1) with true. cbv iota.
  unfold rawRequest. cbn [snd requests cache clock events ingestorRunning
                          stopWaiting spawned blockOut errOut].
  replace (S (requests w + 10)) with (requests w + 11)%nat by lia.
  rewrite <- app_assoc. reflexivity.
Qed.

(** [FirstRPC] always comes to an end within eleven requests. *)
Theorem FirstRPC_bounded (fuel : nat) (w : World C) :
  (11 <= fuel)%nat ->
  fst (fst (FirstRPC fuel w)) <> Done StillRunning /\
  (requests (snd (FirstRPC fuel w)) <= requests w + 11)%nat.
Proof.
  intros Hfuel. unfold FirstRPC.
  assert (Hgen : forall (n fuel : nat) r warned (w : World C),
             0 <= r <= 10 -> r + Z.of_nat n = 11 -> (n <= fuel)%nat ->
             fst (fst (FirstRPC_loop fuel r warned w)) <> Done StillRunning /\
             (requests (snd (FirstRPC_loop fuel r warned w))
              <= requests w + n)%nat).
  { clear. induction n as [|n IH]; intros fuel r warned w Hr Hn Hfuel.
    - exfalso. lia.
    - destruct fuel as [|fuel]; [lia|]. cbn [FirstRPC_loop].
      destruct (snd (RawRequest (requests w) "getblockchaininfo" [])).
      + assert (Hadd : GoInt.add r 1 = r + 1).
        { apply GoIntFacts.add_1_small;
            unfold GoInt.in_range, GoInt.min_int, GoInt.max_int; lia. }
        rewrite Hadd. destruct (Z.ltb_spec 10 (r + 1)).
        * simpl. split; [discriminate|lia].
        * destruct (IH fuel (r + 1)
                      (warned ++ ["error with getblockchaininfo rpc, retrying..."])
                      (snd (Time_Sleep
                              (GoInt.wrap
                                 (GoInt.wrap (10 + GoInt.wrap ((r + 1) * 5)) * Second))
                              (snd (rawRequest "getblockchaininfo" [] w)))))
            as [Hrun Hreq]; [lia|lia|lia|].
          split; [exact Hrun|]. simpl in Hreq. simpl. lia.
      + destruct (json_Unmarshal_Getblockchaininfo _); simpl;
          (split; [discriminate|lia]). }
  apply (Hgen 11%nat); lia.
Qed.

End FirstRPCFacts.

(** ** More of the spam filter *)

Lemma filter_tx_idem t tx : filter_tx t (filter_tx t tx) = filter_tx t tx.
Proof.
  unfold filter_tx, is_spammy.
  destruct (t <? Z.of_nat (length (Outputs tx))
                 + Z.of_nat (length (Actions tx))) eqn:Hsp;
    simpl; [|by rewrite Hsp].
  rewrite !length_map, Hsp. rewrite !map_map. reflexivity.
Qed.

Lemma filter_block_idem t b :
  filter_block t (filter_block t b) = filter_block t b.
Proof.
  unfold filter_block. simpl. rewrite map_map. f_equal.
  apply map_ext. intros tx. apply filter_tx_idem.
Qed.

Lemma filter_block_nothing_spammy t b :
  nothing_spammy t b -> filter_block t b = b.
Proof.
  unfold nothing_spammy, filter_block. intros Hall.
  destruct b as [pv hgt hsh prv tm hdr vtx]. simpl in *. f_equal.
  induction Hall as [|tx vtx Htx Hall IH]; [reflexivity|]. simpl.
  rewrite IH. f_equal. unfold filter_tx, is_spammy.
  destruct (Z.ltb_spec t (Z.of_nat (length (Outputs tx))
                          + Z.of_nat (length (Actions tx)))); [lia|reflexivity].
Qed.

Lemma filter_block_negative t b :
  t < 0 ->
  filter_block t b
  = mkBlock (ProtoVersion b) (Height b) (Hash b) (PrevHash b) (Time b)
            (Header b) (map clear_tx (Vtx b)).
Proof.
  intros Ht. unfold filter_block. f_equal. apply map_ext. intros tx.
  unfold filter_tx, is_spammy, clear_tx.
  destruct (Z.ltb_spec t (Z.of_nat (length (Outputs tx))
                          + Z.of_nat (length (Actions tx)))); [reflexivity|lia].
Qed.

Module MorePointers.
Import Pointers PointersFacts.

(** With any threshold but zero the filter works on a copy: it returns
    a pointer that was not in use, behind it the filtered block, and it
    leaves every message that was in memory as it was. *)
Lemma FilterSpammyBlock_copy h block b t :
  read_block h block = Some b -> t <> 0 ->
  exists h' newBlock,
    FilterSpammyBlock h block t = Some (h', newBlock) /\
    newBlock <> block /\ blocks h !! newBlock = None /\
    preserved h h' /\
    read_block h' newBlock = Some (filter_block t b).
Proof.
  intros Hread Ht.
  destruct (proto_Clone_spec _ _ _ Hread)
    as (h1 & q & vtx & Cl & P & Hq & Hbo & Rv & NO & FO & NA & FA).
  set (h' := foldl (filter_at t) h1 vtx).
  destruct (filter_loop_fields t vtx h1) as (Lt & Ls & Lb).
  destruct (filter_loop_frame t vtx h1) as [Lo La].
  exists h', q. split_and!.
  - unfold FilterSpammyBlock.
    destruct (Z.eqb_spec t 0); [lia|].
    rewrite Cl. simpl. rewrite Hbo. reflexivity.
  - intros ->. destruct (read_block_inv _ _ _ Hread) as (bo & Hbo' & _).
    congruence.
  - exact Hq.
  - destruct P as (Ssp & Sou & Sac & Stx & Sbl). unfold preserved, h'.
    rewrite Lt, Ls, Lb. split_and!; try assumption.
    + apply map_subseteq_spec. intros l o Hl. rewrite Lo.
      * exact (lookup_weaken _ _ _ _ Hl Sou).
      * intros Hin. rewrite Forall_forall in FO.
        specialize (FO l Hin). congruence.
    + apply map_subseteq_spec. intros l a Hl. rewrite La.
      * exact (lookup_weaken _ _ _ _ Hl Sac).
      * intros Hin. rewrite Forall_forall in FA.
        specialize (FA l Hin). congruence.
  - unfold read_block, h'. rewrite Lb, Hbo. simpl.
    rewrite (filter_loop_read t vtx h1 (Vtx b) Rv NO NA). reflexivity.
Qed.

(** A negative threshold clears the outputs and actions of every
    transaction, those without outputs or actions included, in the copy
    returned; the input block reads as before. *)
Theorem FilterSpammyBlock_negative h block b t :
  read_block h block = Some b -> t < 0 ->
  exists h' newBlock,
    FilterSpammyBlock h block t = Some (h', newBlock) /\
    read_block h' block = Some b /\
    read_block h' newBlock
    = Some (mkBlock (ProtoVersion b) (Height b) (Hash b) (PrevHash b)
                    (Time b) (Header b) (map clear_tx (Vtx b))).
Proof.
  intros Hread Ht.
  destruct (FilterSpammyBlock_copy h block b t Hread ltac:(lia))
    as (h' & q & Hf & _ & _ & P & Hnew).
  exists h', q. split_and!; [exact Hf|by apply (read_block_weaken h h')|].
  by rewrite Hnew, filter_block_negative.
Qed.

(** A block with no transaction above the threshold still comes back
    as a copy: another pointer, behind it a block equal to the input. *)
Theorem FilterSpammyBlock_nothing_spammy h block b t :
  read_block h block = Some b -> t <> 0 -> nothing_spammy t b ->
  exists h' newBlock,
    FilterSpammyBlock h block t = Some (h', newBlock) /\
    newBlock <> block /\
    read_block h' newBlock = Some b /\ read_block h' block = Some b.
Proof.
  intros Hread Ht Hall.
  destruct (FilterSpammyBlock_copy h block b t Hread Ht)
    as (h' & q & Hf & Hne & _ & P & Hnew).
  exists h', q. split_and!; [exact Hf|exact Hne| |].
  - by rewrite Hnew, filter_block_nothing_spammy.
  - by apply (read_block_weaken h h').
Qed.

(** Filtering a filtered block again, with the same threshold, changes
    nothing more: the second copy reads as the first. *)
Theorem FilterSpammyBlock_twice h block b t :
  read_block h block = Some b -> t <> 0 ->
  exists h1 p1 h2 p2 b',
    FilterSpammyBlock h block t = Some (h1, p1) /\
    FilterSpammyBlock h1 p1 t = Some (h2, p2) /\
    read_block h1 p1 = Some b' /\ read_block h2 p2 = Some b' /\
    read_block h2 p1 = Some b' /\ read_block h2 block = Some b.
Proof.
  intros Hread Ht.
  destruct (FilterSpammyBlock_copy h block b t Hread Ht)
    as (h1 & p1 & Hf1 & _ & _ & P1 & Hnew1).
  destruct (FilterSpammyBlock_copy h1 p1 _ t Hnew1 Ht)
    as (h2 & p2 & Hf2 & _ & _ & P2 & Hnew2).
  exists h1, p1, h2, p2, (filter_block t b). split_and!; try assumption.
  - by rewrite Hnew2, filter_block_idem.
  - by apply (read_block_weaken h1 h2).
  - apply (read_block_weaken h1 h2); [exact P2|].
    by apply (read_block_weaken h h1).
Qed.

End MorePointers.

(** ** More of GetLightdInfo *)

Section MoreLightdInfo.

Context {C : Type} {BC : BlockCacheOps C} {E : Externals}.

(** An RPC error of either request is returned as it is, not wrapped,
    with a nil result; after a failed getinfo no second request is
    made. *)
Theorem GetLightdInfo_rpc_error (w : World C) result rpcErr :
  (RawRequest (requests w) "getinfo" [] = (result, Some rpcErr) ->
   GetLightdInfo w = (Done (None, Some rpcErr), snd (rawRequest "getinfo" [] w))) /\
  (forall result1 getinfoReply,
     RawRequest (requests w) "getinfo" [] = (result1, None) ->
     json_Unmarshal_Getinfo result1 = inr getinfoReply ->
     RawRequest (S (requests w)) "getblockchaininfo" [] = (result, Some rpcErr) ->
     fst (GetLightdInfo w) = Done (None, Some rpcErr)).
Proof.
  unfold GetLightdInfo, bind, rawRequest, ret. simpl. split.
  - intros ->. reflexivity.
  - intros result1 getinfoReply -> -> . simpl. intros ->. reflexivity.
Qed.

(** When both replies decode, the result carries the node's chain name,
    branch id and build strings, the heights as unsigned 64-bit numbers,
    the vendor string of the mode, and as Sapling activation height that
    of the upgrade "76b809bb", or zero when the reply has no such
    upgrade; the error is nil. *)
Theorem GetLightdInfo_success (w : World C) result1 result2 info chaininfo :
  RawRequest (requests w) "getinfo" [] = (result1, None) ->
  json_Unmarshal_Getinfo result1 = inr info ->
  RawRequest (S (requests w)) "getblockchaininfo" [] = (result2, None) ->
  json_Unmarshal_Getblockchaininfo result2 = inr chaininfo ->
  exists li,
    fst (GetLightdInfo w) = Done (Some li, None) /\
    li_ChainName li = Chain chaininfo /\
    li_ConsensusBranchId li = Chaintip (Consensus chaininfo) /\
    li_BlockHeight li = Blocks chaininfo mod 2 ^ 64 /\
    li_EstimatedHeight li = EstimatedHeight chaininfo mod 2 ^ 64 /\
    li_ZcashdBuild li = Build info /\
    li_ZcashdSubversion li = Subversion info /\
    li_TaddrSupport li = true /\
    li_Vendor li = (if DarksideEnabled then "Zecwallet DarksideWalletD"
                    else "Zecwallet LightWalletD") /\
    li_SaplingActivationHeight li
    = match Upgrades chaininfo !! "76b809bb" with
      | Some u => ActivationHeight u mod 2 ^ 64
      | None => 0
      end.
Proof.
  intros Hreq1 Hjson1 Hreq2 Hjson2.
  unfold GetLightdInfo, bind, rawRequest, ret. simpl.
  rewrite Hreq1, Hjson1. simpl. rewrite Hreq2, Hjson2.
  eexists. split; [reflexivity|]. simpl.
  split_and!; try reflexivity.
  destruct (Upgrades chaininfo !! "76b809bb"); reflexivity.
Qed.

End MoreLightdInfo.

(** ** More scenarios on the test doubles *)

Module MoreScenarios.
Import Mock MoreMock.

Lemma getBestBlockHash_displayHash_witness :
  fst (getBestBlockHash (E:=node_tip_010203) with_four)
  = Done ([x01; x02; x03], None).
Proof.
  apply (getBestBlockHash_displayHash (E:=node_tip_010203) with_four
           (quoted (displayHash [x01; x02; x03])) [x01; x02; x03]);
    reflexivity.
Defined.

Lemma two_txs_first_reply :
  first_reply_parses (E:=node_two_txs) 5 with_four
    (mkBlock_ 5 [xee] [x04] [[]; []]).
Proof.
  exists (quoted "05ee0402"), "05ee0402", [x05; xee; x04; x02].
  split_and!; reflexivity.
Defined.

Lemma bad_txid_first_reply :
  first_reply_parses (E:=node_bad_txid) 5 with_four
    (mkBlock_ 5 [xee] [x04] [[]; []]).
Proof.
  exists (quoted "05ee0402"), "05ee0402", [x05; xee; x04; x02].
  split_and!; reflexivity.
Defined.

(** Two transactions, ids [aabb] and [cc]: the compact block carries
    [bbaa] and [cc]. *)
Lemma getBlockFromRPC_success_witness :
  fst (getBlockFromRPC (E:=node_two_txs) 5 with_four)
  = Done (Some (mkBlock 1 5 [xee] [x04] 0 []
                  [mkTx 0 [xbb; xaa] 0 [] [] []; mkTx 1 [xcc] 0 [] [] []]),
          None).
Proof.
  apply (getBlockFromRPC_success (E:=node_two_txs) 5 with_four
           (mkBlock_ 5 [xee] [x04] [[]; []]) [[xaa; xbb]; [xcc]]
           two_txs_first_reply).
  exists "aabb:cc", (mkGetblock1 ["aabb"; "cc"]).
  split_and!; try reflexivity. repeat constructor.
Defined.

Lemma getBlockFromRPC_bad_txid_witness :
  fst (getBlockFromRPC (E:=node_bad_txid) 5 with_four)
  = Done (None, Some (errors_Wrap (hex_InvalidByteError "z")
                        "error decoding getblock txid")).
Proof.
  apply (getBlockFromRPC_bad_txid (E:=node_bad_txid) 5 with_four
           (mkBlock_ 5 [xee] [x04] [[]; []]) (hex_InvalidByteError "z")
           bad_txid_first_reply).
  exists "aabb:zz", (mkGetblock1 ["aabb"; "zz"]), 1%nat, "zz".
  split_and!; try reflexivity; [simpl; lia|].
  repeat constructor. by exists [xaa; xbb].
Defined.

Lemma getBlockFromRPC_malformed_reply_witness :
  exists err,
    getBlockFromRPC (E:=node_not_hex) 5 with_four
    = (Done (None, Some err),
       snd (rawRequest (E:=node_not_hex) "getblock"
              [fst (json_Marshal_string (GoInt.Itoa 5)); "0"] with_four)).
Proof.
  apply (getBlockFromRPC_malformed_reply (E:=node_not_hex) 5 with_four
           (quoted "xyz") eq_refl).
  exact I.
Defined.

Lemma GetBlockRange_abort_witness :
  exists w' why,
    GetBlockRange (E:=node_short_list) 3 5 5 0 with_four = (Aborted why, w') /\
    why = Panic "index out of range".
Proof.
  pose (r := GetBlockRange (E:=node_short_list) 3 5 5 0 with_four).
  assert (Hrun : GetBlockRange (E:=node_short_list) 3 5 5 0 with_four
                 = (Aborted (Panic "index out of range"), snd r))
    by (vm_compute; reflexivity).
  exists (snd r), (Panic "index out of range"). split; [exact Hrun|].
  exact (GetBlockRange_abort (E:=node_short_list) 3 5 5 0 with_four (snd r)
           (Panic "index out of range") Hrun).
Defined.

(** Heights 4 down to 2, all cached, with the filter off. *)
Lemma GetBlockRange_cached_witness :
  range_cached with_four 4 2 /\
  blockOut (snd (GetBlockRange (E:=node_down) 5 4 2 0 with_four))
  = [Some (block 4 x04 x03); Some (block 3 x03 x02); Some (block 2 x02 x01)] /\
  requests (snd (GetBlockRange (E:=node_down) 5 4 2 0 with_four)) = 0%nat.
Proof.
  assert (Hc : range_cached with_four 4 2).
  { intros h Hh.
    assert (Hcases : h = 2 \/ h = 3 \/ h = 4) by lia.
    destruct Hcases as [-> | [-> | ->]]; vm_compute; eauto. }
  split; [exact Hc|].
  rewrite (GetBlockRange_cached (E:=node_down) 5 4 2 0 with_four).
  - split; reflexivity.
  - unfold GoInt.in_range, GoInt.min_int, GoInt.max_int. lia.
  - unfold GoInt.in_range, GoInt.min_int, GoInt.max_int. lia.
  - unfold GoInt.max_int. lia.
  - simpl. lia.
  - exact Hc.
Defined.

Lemma in_sync_tip : tip_hash_is (E:=node_in_sync) with_four [x04].
Proof.
  split; [reflexivity|]. exists (quoted "04"), "04".
  split_and!; reflexivity.
Defined.

Lemma ingestor_at_tip_witness :
  exists w',
    BlockIngestor_body (E:=node_in_sync) locals0 with_four
    = (Done (Continue (mkLocals (2 * Second) 4)), w') /\
    events w'
    = [EvRawRequest "getbestblockhash" []; EvSync;
       EvLogInfo "Waiting for block: "; EvSleep (2 * Second)].
Proof.
  assert (Htip : [x04] = Reverse (GetLatestHash (cache with_four)))
    by (vm_compute; reflexivity).
  destruct (ingestor_at_tip (E:=node_in_sync) locals0 with_four [x04]
              in_sync_tip Htip)
    as (w' & Hrun & _ & _ & _ & Hev).
  exists w'. split; [exact Hrun|exact Hev].
Defined.

Lemma next_block_reaches_fetch : reaches_fetch (E:=node_next_block) with_four.
Proof.
  split; [reflexivity|].
  exists (quoted "05"), "05", [x05].
  split_and!; [reflexivity..|]. vm_compute. discriminate.
Defined.

Lemma ingestor_appends_witness :
  exists w',
    BlockIngestor_body (E:=node_next_block) locals0 with_four
    = (Done (Continue locals0), w') /\
    cache w' = SpecCache.mk 1 (chain4 ++ [block 5 x05 x04]) false.
Proof.
  pose (w2 := snd (getBlockFromRPC (E:=node_next_block) 5
                     (world_at_fetch (E:=node_next_block) with_four))).
  assert (Hfetch : getBlockFromRPC (E:=node_next_block) 5
                     (world_at_fetch (E:=node_next_block) with_four)
                   = (Done (Some (block 5 x05 x04), None), w2))
    by (vm_compute; reflexivity).
  assert (Hyes : HashMatch (cache with_four) (PrevHash (block 5 x05 x04)) = true)
    by (vm_compute; reflexivity).
  pose proof (ingestor_appends (E:=node_next_block) locals0 with_four w2
                (block 5 x05 x04) next_block_reaches_fetch Hfetch Hyes) as Happ.
  destruct Happ as (w' & Hrun & Hcache & _).
  exists w'. split; [exact Hrun|exact Hcache].
Defined.

Lemma broken_reaches_fetch : reaches_fetch (E:=node_broken) with_four.
Proof.
  split; [reflexivity|].
  exists (quoted "ff"), "ff", [xff].
  split_and!; [reflexivity..|]. vm_compute. discriminate.
Defined.

Lemma ingestor_fetch_error_fatal_witness :
  fst (BlockIngestor_body (E:=node_broken) locals0 with_four)
  = Aborted (LogFatal "getblock failed, will retry").
Proof.
  pose (w2 := snd (getBlockFromRPC (E:=node_broken) 5
                     (world_at_fetch (E:=node_broken) with_four))).
  assert (Hfetch : getBlockFromRPC (E:=node_broken) 5
                     (world_at_fetch (E:=node_broken) with_four)
                   = (Done (None,
                            Some (errors_Wrap
                                    (errorString "-28: Loading block index")
                                    "error requesting block")), w2))
    by (vm_compute; reflexivity).
  destruct (ingestor_fetch_error_fatal (E:=node_broken) locals0 with_four w2
              None _ broken_reaches_fetch Hfetch) as (Hrun & _).
  by rewrite Hrun.
Defined.

Lemma ingestor_tip_error_fatal_witness :
  exists msg,
    BlockIngestor_body (E:=node_down) locals0 with_four
    = (Aborted (LogFatal msg), world_at_fetch (E:=node_down) with_four).
Proof.
  apply (ingestor_tip_error_fatal (E:=node_down) locals0 with_four eq_refl).
  exact I.
Defined.

Lemma BlockIngestor_terminates_witness :
  fst (BlockIngestor (E:=node_in_sync) 3 2 with_four) <> Done StillRunning.
Proof.
  apply (BlockIngestor_terminates (E:=node_in_sync) 3 2 with_four).
  - lia.
  - unfold GoInt.in_range, GoInt.min_int, GoInt.max_int. lia.
  - simpl. lia.
Defined.

Lemma BlockIngestor_returns_only_when_witness :
  last (events (snd (BlockIngestor (E:=node_behind) 3 0 empty_at_1)))
  = Some (EvSleep (20 * Second)).
Proof.
  pose (w' := snd (BlockIngestor (E:=node_behind) 3 0 empty_at_1)).
  assert (Hrun : BlockIngestor (E:=node_behind) 3 0 empty_at_1
                 = (Done Returned, w')) by (vm_compute; reflexivity).
  destruct (BlockIngestor_returns_only_when (E:=node_behind) 3 empty_at_1 w'
              Hrun) as [Hlt|Hlast]; [|exact Hlast].
  vm_compute in Hlt. lia.
Defined.

Lemma stop_ends_loop_witness :
  BlockIngestor (E:=node_down) 1 0 (snd (stopIngestor (running with_four)))
  = (Done Returned, with_four).
Proof.
  exact (stop_ends_loop (E:=node_down) 0 (running with_four) eq_refl).
Defined.

(** Started on the cache with blocks 1 to 4, stopped, stopped again and
    started again: two loops have been spawned in all, and the second
    makes its request. *)
Lemma restart_after_stop_witness :
  let w0 := snd (startIngestor with_four) in
  ingestorRunning w0 = true /\ stopWaiting w0 = 0%nat /\
  exists w1,
    BlockIngestor (E:=node_in_sync) 1 0 (snd (stopIngestor w0))
      = (Done Returned, w1) /\
    stopIngestor w1 = (Done tt, w1) /\
    spawned (snd (startIngestor w1)) = 2%nat /\
    (requests (snd (startIngestor w1))
     < requests (snd (BlockIngestor (E:=node_in_sync) 1 0
                        (snd (startIngestor w1)))))%nat.
Proof.
  split; [reflexivity|]. split; [reflexivity|].
  destruct (restart_after_stop (E:=node_in_sync) 0 0
              (snd (startIngestor with_four)) eq_refl eq_refl)
    as (w1 & Hloop & _ & _ & Hstop & Hspawn & _ & _ & Hreq).
  exists w1. split_and!; [exact Hloop|exact Hstop|exact Hspawn|exact Hreq].
Defined.

Lemma slow_start_fails_twice : next_requests_fail (E:=node_slow_start) with_four 2.
Proof.
  intros i Hi. assert (Hcases : i = 0%nat \/ i = 1%nat) by lia.
  destruct Hcases as [-> | ->]; vm_compute; discriminate.
Defined.

(** Two failures, then an answer: three requests, sleeps of 15 and 20
    seconds. *)
Lemma FirstRPC_after_failures_witness :
  fst (fst (FirstRPC (E:=node_slow_start) 5 with_four)) = Done Returned /\
  clock (snd (FirstRPC (E:=node_slow_start) 5 with_four)) = 35 * Second /\
  requests (snd (FirstRPC (E:=node_slow_start) 5 with_four)) = 3%nat.
Proof.
  destruct (FirstRPC_after_failures (E:=node_slow_start) 2 5 with_four "main"
              ltac:(lia) ltac:(lia) slow_start_fails_twice eq_refl)
    as [Hrun _].
  rewrite Hrun. split_and!; reflexivity.
Defined.

Lemma down_fails_always k : next_requests_fail (E:=node_down) with_four k.
Proof.
  intros i _. unfold node_down, externals. simpl.
  destruct i as [|i]; simpl; discriminate.
Defined.

Lemma FirstRPC_gives_up_witness :
  fst (fst (FirstRPC (E:=node_down) 12 with_four))
  = Aborted (LogFatal
      "unable to issue getblockchaininfo RPC call to zcashd node") /\
  clock (snd (FirstRPC (E:=node_down) 12 with_four)) = 375 * Second.
Proof.
  rewrite (FirstRPC_gives_up (E:=node_down) 12 with_four ltac:(lia)
             (down_fails_always 11)).
  split; reflexivity.
Defined.

Lemma FirstRPC_bounded_witness :
  fst (fst (FirstRPC (E:=node_slow_start) 11 with_four)) <> Done StillRunning.
Proof.
  exact (proj1 (FirstRPC_bounded (E:=node_slow_start) 11 with_four ltac:(lia))).
Defined.

Lemma FilterSpammyBlock_negative_witness :
  exists h' newBlock,
    Pointers.FilterSpammyBlock heap2 1%positive (-1) = Some (h', newBlock) /\
    Pointers.read_block h' newBlock
    = Some (mkBlock 1 7 [x07] [x06] 0 [] (map clear_tx (Vtx block2))).
Proof.
  destruct (MorePointers.FilterSpammyBlock_negative heap2 1%positive block2 (-1)
              eq_refl ltac:(lia)) as (h' & q & Hf & _ & Hnew).
  exists h', q. split; [exact Hf|exact Hnew].
Defined.

Lemma block1_nothing_spammy : nothing_spammy 1 block1.
Proof. repeat constructor. simpl. lia. Defined.

Lemma FilterSpammyBlock_nothing_spammy_witness :
  exists h' newBlock,
    Pointers.FilterSpammyBlock heap1 1%positive 1 = Some (h', newBlock) /\
    newBlock <> 1%positive /\
    Pointers.read_block h' newBlock = Some block1.
Proof.
  destruct (MorePointers.FilterSpammyBlock_nothing_spammy heap1 1%positive
              block1 1 eq_refl ltac:(lia) block1_nothing_spammy)
    as (h' & q & Hf & Hne & Hnew & _).
  exists h', q. split_and!; assumption.
Defined.

Lemma FilterSpammyBlock_twice_witness :
  exists h1 p1 h2 p2 b',
    Pointers.FilterSpammyBlock heap2 1%positive 1 = Some (h1, p1) /\
    Pointers.FilterSpammyBlock h1 p1 1 = Some (h2, p2) /\
    Pointers.read_block h1 p1 = Some b' /\
    Pointers.read_block h2 p2 = Some b'.
Proof.
  destruct (MorePointers.FilterSpammyBlock_twice heap2 1%positive block2 1
              eq_refl ltac:(lia))
    as (h1 & p1 & h2 & p2 & b' & H1 & H2 & R1 & R2 & _).
  exists h1, p1, h2, p2, b'. split_and!; assumption.
Defined.

Lemma GetLightdInfo_rpc_error_witness :
  GetLightdInfo (E:=node_down) with_four
  = (Done (None, Some (errorString "connection refused")),
     snd (rawRequest (E:=node_down) "getinfo" [] with_four)).
Proof.
  exact (proj1 (GetLightdInfo_rpc_error (E:=node_down) with_four
                  EmptyString (errorString "connection refused")) eq_refl).
Defined.

Lemma GetLightdInfo_success_witness :
  exists li,
    fst (GetLightdInfo (E:=node_info) with_four) = Done (Some li, None) /\
    li_ChainName li = "main" /\
    li_Vendor li = "Zecwallet DarksideWalletD" /\
    li_SaplingActivationHeight li = 0.
Proof.
  destruct (GetLightdInfo_success (E:=node_info) with_four "v4.7.0" "main"
              (mkGetinfo "v4.7.0" "/MagicBean/")
              (mkGetblockchaininfo "main" ∅ 0 EmptyString
                 (mkConsensusInfo EmptyString EmptyString) 0)
              eq_refl eq_refl eq_refl eq_refl)
    as (li & Hrun & Hchain & _ & _ & _ & _ & _ & _ & Hvendor & Hsap).
  exists li. split_and!; assumption.
Defined.

End MoreScenarios.
